(** * ownref: APA reference lines from BibTeX entries

    A shallow embedding of [src/main.py] and the properties its
    specification states about it.

    Python [str] values are sequences of Unicode code points; they are
    modelled as [list N].  The regular expressions of the program are
    embedded by a generic scanning engine for [re.sub] and [re.split]
    (leftmost, non-overlapping, non-empty matches) that is instantiated
    with one match-here function per pattern.  Exceptions are an
    explicit [result] type; printing is explicit state passing over the
    two output streams. *)

From Stdlib Require Import NArith Ascii String Lia.
From stdpp Require Import gmap list.

Set Default Proof Using "Type".

(** ** Strings and characters *)

Abbreviation char := N.
Abbreviation str := (list N).

(** A literal of the source, for ASCII text. *)
Definition py (s : string) : str := map N_of_ascii (list_ascii_of_string s).

Definition BACKSLASH : char := 92%N.
Definition APOSTROPHE : char := 39%N.
Definition BACKTICK : char := 96%N.
Definition TILDE : char := 126%N.
Definition DQUOTE : char := 34%N.
Definition LBRACE : char := 123%N.
Definition RBRACE : char := 125%N.
Definition NEWLINE : char := 10%N.
Definition SPACE : char := 32%N.
Definition COMMA : char := 44%N.
Definition DOT : char := 46%N.

Definition in_range (lo hi c : char) : bool := ((lo <=? c) && (c <=? hi))%N.

(** The character class [[A-Za-z]] of the patterns. *)
Definition is_letter (c : char) : bool :=
  in_range 65 90 c || in_range 97 122 c.

(** Whitespace as [str.strip], [str.split] and the class [\s] of a [str]
    pattern see it: the ASCII controls 9-13 and 28-31, the space, and the
    Unicode separators. *)
Definition is_space (c : char) : bool :=
  in_range 9 13 c || in_range 28 32 c
  || (c =? 133)%N || (c =? 160)%N || (c =? 5760)%N
  || in_range 8192 8202 c || (c =? 8232)%N || (c =? 8233)%N
  || (c =? 8239)%N || (c =? 8287)%N || (c =? 12288)%N.

(** ** Exceptions *)

Inductive exn : Type :=
  | IndexError
  | LibraryError (msg : str).

Inductive result (A : Type) : Type :=
  | Ok (a : A)
  | Raise (e : exn).
Arguments Ok {A} a.
Arguments Raise {A} e.

Definition bind {A B} (r : result A) (k : A -> result B) : result B :=
  match r with
  | Ok a => k a
  | Raise e => Raise e
  end.

Notation "'do' x <- r ; k" := (bind r (fun x => k))
  (at level 10, x name, r at level 100, k at level 200).

Fixpoint mapM {A B} (f : A -> result B) (l : list A) : result (list B) :=
  match l with
  | [] => Ok []
  | a :: l' => do b <- f a; do bs <- mapM f l'; Ok (b :: bs)
  end.

(** ** Builtins of [str] *)

(** [s.replace(a, b)] for one-character [a] and [b]. *)
Definition replace_char (a b : char) (s : str) : str :=
  map (fun c => if (c =? a)%N then b else c) s.

(** [s.replace(a, '')] for a one-character [a]. *)
Fixpoint remove_char (a : char) (s : str) : str :=
  match s with
  | [] => []
  | c :: s' => if (c =? a)%N then remove_char a s' else c :: remove_char a s'
  end.

Fixpoint lstrip (s : str) : str :=
  match s with
  | [] => []
  | c :: s' => if is_space c then lstrip s' else s
  end.

Fixpoint rstrip (s : str) : str :=
  match s with
  | [] => []
  | c :: s' =>
      match rstrip s' with
      | [] => if is_space c then [] else [c]
      | r => c :: r
      end
  end.

(** [s.strip()] *)
Definition strip (s : str) : str := rstrip (lstrip s).

Definition cons_token (t : str) (ts : list str) : list str :=
  match t with
  | [] => ts
  | _ => t :: ts
  end.

(** The token being read at the head of [s], and the tokens after it. *)
Fixpoint split_scan (s : str) : str * list str :=
  match s with
  | [] => ([], [])
  | c :: s' =>
      let '(t, ts) := split_scan s' in
      if is_space c then ([], cons_token t ts) else (c :: t, ts)
  end.

(** [s.split()]: the maximal runs of non-whitespace, in order. *)
Definition split_ws (s : str) : list str :=
  let '(t, ts) := split_scan s in cons_token t ts.

(** [sep.join(l)] *)
Fixpoint join (sep : str) (l : list str) : str :=
  match l with
  | [] => []
  | [x] => x
  | x :: l' => x ++ sep ++ join sep l'
  end.

(** [c in s] *)
Definition contains (c : char) (s : str) : bool :=
  existsb (fun d => (d =? c)%N) s.

(** [s.split(c, 1)] when [c] occurs in [s]: the text before the first [c]
    and the text after it. *)
Fixpoint split_once (c : char) (s : str) : str * str :=
  match s with
  | [] => ([], [])
  | d :: s' =>
      if (d =? c)%N then ([], s')
      else let '(a, b) := split_once c s' in (d :: a, b)
  end.

(** ** The scanning engine of [re.sub] and [re.split]

    A pattern is given by its match at the head of the remaining text:
    [m s = Some (n, r)] when the pattern matches the first [n] characters
    of [s] (with [n > 0] for every pattern of this program), [r] being the
    replacement computed from the match.  The scan takes the leftmost
    match, resumes after it, and copies one character where there is
    none.  [skip] counts the characters of a match still to be passed. *)

Fixpoint re_sub_go (m : str -> option (nat * str)) (skip : nat) (s : str) : str :=
  match s with
  | [] => []
  | c :: s' =>
      match skip with
      | S k => re_sub_go m k s'
      | O =>
          match m s with
          | Some (S k, r) => r ++ re_sub_go m k s'
          | _ => c :: re_sub_go m 0 s'
          end
      end
  end.

Definition re_sub (m : str -> option (nat * str)) (s : str) : str :=
  re_sub_go m 0 s.

Definition add_head (c : char) (ps : list str) : list str :=
  match ps with
  | [] => [[c]]
  | p :: ps' => (c :: p) :: ps'
  end.

Fixpoint re_split_go (m : str -> option nat) (skip : nat) (s : str) : list str :=
  match s with
  | [] => [[]]
  | c :: s' =>
      match skip with
      | S k => re_split_go m k s'
      | O =>
          match m s with
          | Some (S k) => [] :: re_split_go m k s'
          | _ => add_head c (re_split_go m 0 s')
          end
      end
  end.

Definition re_split (m : str -> option nat) (s : str) : list str :=
  re_split_go m 0 s.

(** Number of whitespace characters at the head of [s]: what a greedy
    [\s+] consumes. *)
Fixpoint span_space (s : str) : nat :=
  match s with
  | [] => 0
  | c :: s' => if is_space c then S (span_space s') else 0
  end.

(** ** [_unescape_latex] *)

(** The dictionary [accents], with the default of [accents.get(x, x)]. *)
Definition accents (x : char) : char :=
  (if x =? 97 then 225 else if x =? 101 then 233 else if x =? 105 then 237
   else if x =? 111 then 243 else if x =? 117 then 250
   else if x =? 65 then 193 else if x =? 69 then 201 else if x =? 73 then 205
   else if x =? 79 then 211 else if x =? 85 then 218
   else if x =? 110 then 241 else if x =? 78 then 209
   else x)%N.

(** [\\'\\?([A-Za-z])] with its replacement. *)
Definition m_acute (s : str) : option (nat * str) :=
  match s with
  | b :: q :: c :: r =>
      if (b =? BACKSLASH)%N && (q =? APOSTROPHE)%N then
        if (c =? BACKSLASH)%N then
          match r with
          | d :: _ => if is_letter d then Some (4, [accents d]) else None
          | [] => None
          end
        else if is_letter c then Some (3, [accents c]) else None
      else None
  | _ => None
  end.

(** A backslash, the introducer [i], and one character of the class
    [cls]; the replacement is [f] of that character. *)
Definition m_macro (i : char) (cls : char -> bool) (f : char -> char)
    (s : str) : option (nat * str) :=
  match s with
  | b :: q :: c :: _ =>
      if (b =? BACKSLASH)%N && (q =? i)%N && cls c then Some (3, [f c]) else None
  | _ => None
  end.

(** [\\`([A-Za-z])] *)
Definition m_grave : str -> option (nat * str) :=
  m_macro BACKTICK is_letter (fun c => c).

(** [\\~([nN])] *)
Definition m_tilde : str -> option (nat * str) :=
  m_macro TILDE (fun c => (c =? 110)%N || (c =? 78)%N)
    (fun c => if (c =? 110)%N then 241%N else 209%N).

(** A backslash, a double quote and [([A-Za-z])]. *)
Definition m_umlaut : str -> option (nat * str) :=
  m_macro DQUOTE is_letter
    (fun c => if (c =? 111)%N then 246%N else if (c =? 79)%N then 214%N else c).

(** [\s+] replaced by one space. *)
Definition m_spaces (s : str) : option (nat * str) :=
  match span_space s with
  | O => None
  | n => Some (n, [SPACE])
  end.

Definition collapse_spaces (s : str) : str := re_sub m_spaces s.

Definition _unescape_latex (s : str) : str :=
  match s with
  | [] => s
  | _ =>
      let s := replace_char NEWLINE SPACE s in
      let s := re_sub m_acute s in
      let s := re_sub m_grave s in
      let s := re_sub m_tilde s in
      let s := re_sub m_umlaut s in
      let s := remove_char RBRACE (remove_char LBRACE s) in
      strip (collapse_spaces s)
  end.



(** ** [_format_authors_apa] *)

(** [\s+and\s+]: both runs of whitespace are greedy, and giving back a
    whitespace character never helps (what follows a run must be the
    letter a, or the end of the match), so the match at a position is
    the one with both runs taken in full. *)
Definition m_and (s : str) : option nat :=
  match span_space s with
  | O => None
  | n1 =>
      match drop n1 s with
      | a :: n :: d :: r =>
          if (a =? 97)%N && (n =? 110)%N && (d =? 100)%N then
            match span_space r with
            | O => None
            | n2 => Some (n1 + 3 + n2)
            end
          else None
      | _ => None
      end
  end.

(** [l[-1]] *)
Definition py_last {A} (l : list A) : result A :=
  match last l with
  | Some x => Ok x
  | None => Raise IndexError
  end.

(** [l[:-1]] *)
Definition py_init {A} (l : list A) : list A := take (length l - 1) l.

(** The pair [(last, first)] of one unescaped author segment. *)
Definition split_name (p : str) : result (str * str) :=
  if contains COMMA p then
    let '(a, b) := split_once COMMA p in Ok (strip a, strip b)
  else
    let tokens := split_ws p in
    match tokens with
    | [t] => Ok (t, [])
    | _ => do l <- py_last tokens; Ok (l, join [SPACE] (py_init tokens))
    end.

(** The loop that builds [initials], and the final [strip]. *)
Definition initials_of (first : str) : str :=
  strip (fold_left
           (fun acc token =>
              match token with
              | [] => acc
              | c :: _ => acc ++ [SPACE; c; DOT]
              end)
           (split_ws first) []).

(** One round of the loop over [parts]: the string appended to [names]. *)
Definition format_name (p : str) : result str :=
  let p := _unescape_latex (strip p) in
  do lf <- split_name p;
  let initials := initials_of (snd lf) in
  match initials with
  | [] => Ok (fst lf)
  | _ => Ok (fst lf ++ py ", " ++ initials)
  end.

(** The three [return]s after the loop. *)
Definition join_names (names : list str) : result str :=
  match names with
  | [a] => Ok a
  | [a; b] => Ok (a ++ py ", & " ++ b)
  | _ => do l <- py_last names;
         Ok (join (py ", ") (py_init names) ++ py ", & " ++ l)
  end.

Definition _format_authors_apa (authors_field : str) : result str :=
  match authors_field with
  | [] => Ok []
  | _ =>
      let parts := re_split m_and authors_field in
      do names <- mapM format_name parts;
      join_names names
  end.

(** ** [PaperFromBib] *)

(** [fields.get(k, '')] *)
Definition get (fields : gmap str str) (k : string) : str :=
  default [] (fields !! py k).

(** A field, unescaped and trimmed. *)
Definition clean (fields : gmap str str) (k : string) : str :=
  strip (_unescape_latex (get fields k)).

(** The journal/volume(number) part. *)
Definition journal_part (journal volume number : str) : str :=
  let vol_part :=
    match volume with
    | [] => match number with
            | [] => []
            | _ => py "(" ++ number ++ py ")"
            end
    | _ => match number with
           | [] => volume
           | _ => volume ++ py "(" ++ number ++ py ")"
           end
    end in
  match vol_part with
  | [] => journal
  | _ => match journal with
         | [] => vol_part
         | _ => journal ++ py ", " ++ vol_part
         end
  end.

(** [apa += piece] when [x] is not empty. *)
Definition add_part (x piece apa : str) : str :=
  match x with
  | [] => apa
  | _ => apa ++ piece
  end.

(** The lines under [# Format output], up to the [print]. *)
Definition assemble (authors year title jpart : str) : str :=
  let apa := [] in
  let apa := add_part authors (authors ++ py " ") apa in
  let apa := add_part year (py "(" ++ year ++ py "). ") apa in
  let apa := add_part title (title ++ py ". ") apa in
  let apa := add_part jpart (jpart ++ py ".") apa in
  strip (collapse_spaces apa).

(** The line that [PaperFromBib] prints for a field mapping. *)
Definition apa_line (fields : gmap str str) : result str :=
  do authors <- _format_authors_apa (get fields "author");
  let year := clean fields "year" in
  let title := clean fields "title" in
  let journal := clean fields "journal" in
  let volume := clean fields "volume" in
  let number := clean fields "number" in
  Ok (assemble authors year title (journal_part journal volume number)).

(** ** The output streams *)

Record world : Type := World { stdout : list str; stderr : list str }.

Definition print_out (line : str) (w : world) : world :=
  World (stdout w ++ [line]) (stderr w).

Definition print_err (line : str) (w : world) : world :=
  World (stdout w) (stderr w ++ [line]).

(** The end of [PaperFromBib], from the field mapping on: the line is
    printed unless the author formatter raised. *)
Definition print_reference (fields : gmap str str) (w : world) : world * result unit :=
  match apa_line fields with
  | Ok apa => (print_out apa w, Ok tt)
  | Raise e => (w, Raise e)
  end.

(** [str(e)] *)
Definition exn_str (e : exn) : str :=
  match e with
  | IndexError => py "list index out of range"
  | LibraryError msg => msg
  end.

Section Program.

(** The collaborators that are not part of the repository:
    [bibtexparser.loads] with the entries of the database it returns
    (each the items of a dictionary, in order), [str.lower], the help
    text of the argument parser and the traceback the interpreter
    writes for an exception nobody caught. *)
Variable loads : str -> result (list (list (str * str))).
Variable lower : str -> str.
Variable help_text : list str.
Variable traceback : exn -> list str.

(** [{k.lower(): v for k, v in entry.items()}] *)
Definition lower_keys (entry : list (str * str)) : gmap str str :=
  fold_left (fun m kv => <[lower (fst kv) := snd kv]> m) entry ∅.

Definition _parse_bib_fields (paper : str) (w : world) : gmap str str * world :=
  match paper with
  | [] => (∅, w)
  | _ =>
      match loads paper with
      | Ok [] => (∅, w)
      | Ok (entry :: _) => (lower_keys entry, w)
      | Raise e =>
          (∅, print_err (py "Error parsing BibTeX with bibtexparser: " ++ exn_str e) w)
      end
  end.

Definition PaperFromBib (paper : str) (w : world) : world * result unit :=
  let '(fields, w) := _parse_bib_fields paper w in
  print_reference fields w.

(** What [main] sees after [parse_args]: the two arguments, the file
    system as the result of opening and reading a path, and standard
    input. *)
Record invocation : Type := Invocation {
  arg_text : option str;
  arg_file : option str;
  read_file : str -> result str;
  stdin_isatty : bool;
  stdin_read : str
}.

(** An optional argument that is given and not empty. *)
Definition truthy (a : option str) : option str :=
  match a with
  | Some (c :: s) => Some (c :: s)
  | _ => None
  end.

(** The end of the process when [PaperFromBib] was called outside any
    [try]: status 0, or the traceback and status 1. *)
Definition finish (r : world * result unit) : world * nat :=
  match r with
  | (w, Ok _) => (w, 0)
  | (w, Raise e) => (World (stdout w) (stderr w ++ traceback e), 1)
  end.

Definition read_error (path : str) (e : exn) (w : world) : world * nat :=
  (print_err (py "Error reading ` " ++ path ++ py " `: " ++ exn_str e) w, 1).

(** The process from the return of [parse_args] on: the final streams
    and the exit status.  A command line that the argument parser
    rejects ends the process before, inside [parse_args]. *)
Definition main (i : invocation) (w : world) : world * nat :=
  match truthy (arg_text i) with
  | Some text => finish (PaperFromBib text w)
  | None =>
      match truthy (arg_file i) with
      | Some path =>
          match read_file i path with
          | Raise e => read_error path e w
          | Ok content =>
              match PaperFromBib content w with
              | (w', Ok _) => (w', 0)
              | (w', Raise e) => read_error path e w'
              end
          end
      | None =>
          if stdin_isatty i
          then (World (stdout w ++ help_text) (stderr w), 0)
          else finish (PaperFromBib (stdin_read i) w)
      end
  end.

End Program.


(** ** Notions of the specification *)

(** The pattern [m] matches somewhere in [s]. *)
Fixpoint has_match (m : str -> option (nat * str)) (s : str) : bool :=
  match s with
  | [] => false
  | _ :: s' =>
      match m s with
      | Some _ => true
      | None => has_match m s'
      end
  end.

(** One of the four accent macros is left in [s]. *)
Definition has_macro (s : str) : bool :=
  has_match m_acute s || has_match m_grave s
  || has_match m_tilde s || has_match m_umlaut s.

Definition has_brace (s : str) : bool :=
  contains LBRACE s || contains RBRACE s.

(** The Latin letters. *)
Definition letters : list char :=
  map N.of_nat (seq 65 26 ++ seq 97 26).

(** The letters that take an accent under the acute macro, each with the
    character the specification documents for it. *)
Definition acute_table : list (char * char) :=
  [ (97, 225); (101, 233); (105, 237); (111, 243); (117, 250);
    (65, 193); (69, 201); (73, 205); (79, 211); (85, 218);
    (110, 241); (78, 209) ]%N.

Fixpoint assoc (x : char) (t : list (char * char)) : option char :=
  match t with
  | [] => None
  | (k, v) :: t' => if (x =? k)%N then Some v else assoc x t'
  end.

(** The accented character when [x] is in the table, the bare letter
    otherwise. *)
Definition acute_spec (x : char) : char := default x (assoc x acute_table).

(** The umlaut: only o and O take it. *)
Definition umlaut_spec (x : char) : char :=
  if (x =? 111)%N then 246%N else if (x =? 79)%N then 214%N else x.

(** The journal/volume/number segment as the specification words it: the
    journal, a comma and the volume part whenever there is a volume; for
    a number alone, the comma only after a journal that is not empty. *)
Definition journal_part_as_specified (journal volume number : str) : str :=
  match volume, number with
  | _ :: _, _ :: _ => journal ++ py ", " ++ volume ++ py "(" ++ number ++ py ")"
  | _ :: _, [] => journal ++ py ", " ++ volume
  | [], _ :: _ =>
      match journal with
      | [] => py "(" ++ number ++ py ")"
      | _ => journal ++ py ", " ++ py "(" ++ number ++ py ")"
      end
  | [], [] => journal
  end.


Definition nonempty (s : str) : bool :=
  match s with
  | [] => false
  | _ => true
  end.


(** The fields the reference line is made of, besides the authors. *)
Definition plain_fields : list string :=
  ["year"; "title"; "journal"; "volume"; "number"]%string.

(** Every whitespace character of [t] is a space, and no two of them
    are adjacent. *)
Fixpoint single_spaced (t : str) : Prop :=
  match t with
  | [] => True
  | c :: t' =>
      (is_space c = true -> c = SPACE /\ span_space t' = 0) /\ single_spaced t'
  end.

(** The initial of a first-name token: its first character and a period. *)
Definition initial (token : str) : str :=
  match token with
  | [] => []
  | c :: _ => [c; DOT]
  end.

(** The initials of a first-name string: one per token, joined by spaces. *)
Definition initials_spec (first : str) : str :=
  join [SPACE] (map initial (split_ws first)).

(** A formatted name: the last name alone, or the last name, a comma and
    the initials. *)
Definition render_name (last first : str) : str :=
  match initials_spec first with
  | [] => last
  | ini => last ++ py ", " ++ ini
  end.

(** A token starts with a character that is not whitespace. *)
Definition is_token (t : str) : Prop :=
  exists c t', t = c :: t' /\ is_space c = false.

(** The diagnostic of a failed parse. *)
Definition parse_diagnostic (e : exn) : str :=
  py "Error parsing BibTeX with bibtexparser: " ++ exn_str e.

(** The entry text [paper] is what the invocation hands to
    [PaperFromBib]: the [--text] argument, or the content of the file, or
    standard input when it is not a terminal. *)
Definition delivers (i : invocation) (paper : str) : Prop :=
  truthy (arg_text i) = Some paper
  \/ (truthy (arg_text i) = None /\
      exists path, truthy (arg_file i) = Some path /\ read_file i path = Ok paper)
  \/ (truthy (arg_text i) = None /\ truthy (arg_file i) = None /\
      stdin_isatty i = false /\ stdin_read i = paper).

(** [s] starts with [sep]. *)
Fixpoint starts_with (sep s : str) : bool :=
  match sep, s with
  | [], _ => true
  | a :: sep', c :: s' => (a =? c)%N && starts_with sep' s'
  | _ :: _, [] => false
  end.

(** The split of the specification: at the occurrences of the literal
    separator, the word and with one space on each side. *)
Definition m_literal (sep : str) (s : str) : option nat :=
  if starts_with sep s then Some (length sep) else None.

Definition split_literal_and (s : str) : list str :=
  re_split (m_literal (py " and ")) s.

(** A separator of the program: the word and between two runs of one or
    more whitespace characters. *)
Definition and_separator (sep : str) : Prop :=
  exists w1 w2,
    w1 <> [] /\ w2 <> [] /\
    Forall (fun c => is_space c = true) w1 /\
    Forall (fun c => is_space c = true) w2 /\
    sep = w1 ++ py "and" ++ w2.

(** A separator starts at position [i] of [s]. *)
Definition separator_at (s : str) (i : nat) : Prop :=
  exists x sep y, and_separator sep /\ s = x ++ sep ++ y /\ length x = i.

(** [pieces] are the segments of [s] between its successive leftmost
    separators, each separator taking in full the whitespace after the
    word. *)
Inductive split_at_and : str -> list str -> Prop :=
  | split_at_and_last (s : str) :
      (forall i, ~ separator_at s i) ->
      split_at_and s [s]
  | split_at_and_cons (p sep rest : str) (pieces : list str) :
      and_separator sep ->
      span_space rest = 0 ->
      (forall i, i < length p -> ~ separator_at (p ++ sep ++ rest) i) ->
      split_at_and rest pieces ->
      split_at_and (p ++ sep ++ rest) (p :: pieces).

(** ** Notions used by the further properties *)

(** A character that the unescaper passes through: no whitespace, no
    backslash and no brace. *)
Definition plain_char (c : char) : bool :=
  negb (is_space c) && negb (c =? BACKSLASH)%N
  && negb (c =? LBRACE)%N && negb (c =? RBRACE)%N.

(** The characters of [s] that are not whitespace, in order. *)
Definition ink (s : str) : str := List.filter (fun c => negb (is_space c)) s.

(** A word of plain characters. *)
Definition plain_word (w : str) : Prop :=
  w <> [] /\ Forall (fun c => plain_char c = true) w.

(** A word of a name: plain characters other than the comma. *)
Definition name_word (w : str) : Prop :=
  w <> [] /\ Forall (fun c => plain_char c = true /\ c <> COMMA) w.

(** The value of the last item of [entry] whose name, in lower case, is
    [key]. *)
Definition field_value (lower : str -> str) (key : str)
    (entry : list (str * str)) : option str :=
  last (map snd (List.filter (fun kv => bool_decide (lower (fst kv) = key)) entry)).
(** * Properties *)

(** ** The scanning engine *)

Section Engine.

Variable m : str -> option (nat * str).

Lemma re_sub_go_skip (k : nat) (s : str) :
  re_sub_go m k s = re_sub m (drop k s).
Proof.
  revert k; induction s as [|c s IH]; intros [|k]; simpl; try reflexivity.
  apply IH.
Qed.

Lemma re_sub_cons (c : char) (s : str) :
  re_sub m (c :: s) =
    match m (c :: s) with
    | Some (S k, r) => r ++ re_sub m (drop k s)
    | _ => c :: re_sub m s
    end.
Proof.
  unfold re_sub at 1; simpl.
  destruct (m (c :: s)) as [[[|k] r]|]; try reflexivity.
  now rewrite re_sub_go_skip.
Qed.

Lemma re_sub_no_match (s : str) : has_match m s = false -> re_sub m s = s.
Proof.
  induction s as [|c s IH]; [reflexivity|].
  simpl; intros H.
  rewrite re_sub_cons.
  destruct (m (c :: s)); [discriminate|].
  now rewrite IH.
Qed.

End Engine.

Section SplitEngine.

Variable m : str -> option nat.

Lemma re_split_go_skip (k : nat) (s : str) :
  re_split_go m k s = re_split m (drop k s).
Proof.
  revert k; induction s as [|c s IH]; intros [|k]; simpl; try reflexivity.
  apply IH.
Qed.

Lemma re_split_cons (c : char) (s : str) :
  re_split m (c :: s) =
    match m (c :: s) with
    | Some (S k) => [] :: re_split m (drop k s)
    | _ => add_head c (re_split m s)
    end.
Proof.
  unfold re_split at 1; simpl.
  destruct (m (c :: s)) as [[|k]|]; try reflexivity.
  now rewrite re_split_go_skip.
Qed.

End SplitEngine.

(** ** Letters *)

Lemma is_letter_range (x : char) :
  is_letter x = true -> (65 <= x <= 90)%N \/ (97 <= x <= 122)%N.
Proof.
  unfold is_letter, in_range.
  rewrite orb_true_iff, !andb_true_iff, !N.leb_le. tauto.
Qed.

Lemma letters_complete (x : char) : is_letter x = true -> In x letters.
Proof.
  intros H%is_letter_range.
  rewrite <- (N2Nat.id x). unfold letters.
  apply in_map, in_or_app. rewrite !in_seq. lia.
Qed.

(** A property of every letter follows from its 52 instances. *)
Lemma letter_cases (P : char -> Prop) :
  Forall P letters -> forall x, is_letter x = true -> P x.
Proof.
  intros HP x Hx. rewrite Forall_forall in HP.
  apply HP, list_elem_of_In, letters_complete, Hx.
Qed.

(** C6: for every Latin letter x, unescaping the acute macro on x, with
    or without a backslash before x, yields the accented character of the
    table for the twelve letters a e i o u A E I O U n N and the bare
    letter otherwise; the grave macro yields the bare letter; the umlaut
    macro yields o and O with the umlaut and every other letter bare; the
    tilde macro yields n and N with the tilde. *)
Theorem unescape_accent_macros (x : char) :
  is_letter x = true ->
  _unescape_latex [BACKSLASH; APOSTROPHE; x] = [acute_spec x]
  /\ _unescape_latex [BACKSLASH; APOSTROPHE; BACKSLASH; x] = [acute_spec x]
  /\ _unescape_latex [BACKSLASH; BACKTICK; x] = [x]
  /\ _unescape_latex [BACKSLASH; DQUOTE; x] = [umlaut_spec x]
  /\ _unescape_latex [BACKSLASH; TILDE; 110%N] = [241%N]
  /\ _unescape_latex [BACKSLASH; TILDE; 78%N] = [209%N].
Proof.
  revert x. apply letter_cases.
  unfold letters; simpl.
  repeat (constructor; [vm_compute; repeat split; reflexivity|]).
  constructor.
Qed.

Lemma unescape_accent_macros_witness :
  _unescape_latex (py "\'e") = [233%N]
  /\ _unescape_latex (py "\'\e") = [233%N]
  /\ _unescape_latex (py "\`e") = [101%N]
  /\ _unescape_latex [BACKSLASH; DQUOTE; 101%N] = [101%N]
  /\ _unescape_latex (py "\~n") = [241%N]
  /\ _unescape_latex (py "\~N") = [209%N].
Proof.
  apply (unescape_accent_macros 101%N). reflexivity.
Defined.

(** ** Joining the formatted names *)

Lemma py_last_snoc {A} (l : list A) (x : A) : py_last (l ++ [x]) = Ok x.
Proof. unfold py_last. now rewrite last_snoc. Qed.

Lemma py_init_snoc {A} (l : list A) (x : A) : py_init (l ++ [x]) = l.
Proof.
  unfold py_init. rewrite length_app; simpl.
  replace (length l + 1 - 1) with (length l) by lia.
  now rewrite take_app_length.
Qed.

(** C8: one name yields itself, two names are joined by a comma and an
    ampersand, and three or more names yield every name but the last
    joined by commas, then a comma, an ampersand and the last name; the
    two author lists of the specification format as it says. *)
Theorem join_names_spec :
  (forall a, join_names [a] = Ok a)
  /\ (forall a b, join_names [a; b] = Ok (a ++ py ", & " ++ b))
  /\ (forall a b front l,
        join_names (a :: b :: front ++ [l]) =
          Ok (join (py ", ") (a :: b :: front) ++ py ", & " ++ l))
  /\ _format_authors_apa (py "John Smith and Jane Doe") = Ok (py "Smith, J., & Doe, J.")
  /\ _format_authors_apa (py "A B and C D and E F") = Ok (py "B, A., D, C., & F, E.")
  /\ _format_authors_apa (py "Smith, John") = Ok (py "Smith, J.").
Proof.
  repeat split; try reflexivity.
  intros a b front l.
  change (a :: b :: front ++ [l]) with ((a :: b :: front) ++ [l]).
  unfold join_names.
  rewrite py_last_snoc, py_init_snoc.
  destruct front; reflexivity.
Qed.

(** ** The journal part *)

Lemma journal_part_differs_from_specified :
  journal_part [] (py "5") (py "2") = py "5(2)"
  /\ journal_part_as_specified [] (py "5") (py "2") = py ", 5(2)"
  /\ journal_part [] (py "5") (py "2") <> journal_part_as_specified [] (py "5") (py "2").
Proof. repeat split. discriminate. Qed.

(** C3, amended: with a volume and a number the segment is the journal,
    a comma and volume(number); with a volume only it is the journal, a
    comma and the volume; with a number only it is the journal, a comma
    and (number); in these three cases the journal and the comma are
    there only when the journal is not empty, and the volume part stands
    alone otherwise.  With neither it is the journal.  Volume 5 with
    journal J and no number gives J, 5. *)
Theorem journal_part_cases :
  (forall j0 j v0 v n0 n,
     journal_part (j0 :: j) (v0 :: v) (n0 :: n) =
       (j0 :: j) ++ py ", " ++ (v0 :: v) ++ py "(" ++ (n0 :: n) ++ py ")")
  /\ (forall v0 v n0 n,
        journal_part [] (v0 :: v) (n0 :: n) = (v0 :: v) ++ py "(" ++ (n0 :: n) ++ py ")")
  /\ (forall j0 j v0 v,
        journal_part (j0 :: j) (v0 :: v) [] = (j0 :: j) ++ py ", " ++ (v0 :: v))
  /\ (forall v0 v, journal_part [] (v0 :: v) [] = v0 :: v)
  /\ (forall j0 j n0 n,
        journal_part (j0 :: j) [] (n0 :: n) =
          (j0 :: j) ++ py ", " ++ py "(" ++ (n0 :: n) ++ py ")")
  /\ (forall n0 n, journal_part [] [] (n0 :: n) = py "(" ++ (n0 :: n) ++ py ")")
  /\ (forall j, journal_part j [] [] = j)
  /\ journal_part (py "J") (py "5") [] = py "J, 5".
Proof.
  repeat split; reflexivity.
Qed.

(** ** The author formatter on segments without a name *)

(** C1: the formatter raises on a field with an empty segment: after a
    trailing or before a leading separator, for a segment of braces, and
    for a field of braces or of whitespace only. *)
Theorem format_authors_raises_on_empty_segment :
  _format_authors_apa (py "Smith and ") = Raise IndexError
  /\ _format_authors_apa (py "Smith and {}") = Raise IndexError
  /\ _format_authors_apa (py " and Smith") = Raise IndexError
  /\ _format_authors_apa (py "{}") = Raise IndexError
  /\ _format_authors_apa (py " ") = Raise IndexError.
Proof. repeat split. Qed.

(** ** Whitespace: [strip] and the collapse of runs *)

Lemma span_space_drop (s : str) : span_space (drop (span_space s) s) = 0.
Proof.
  induction s as [|c s IH]; [reflexivity|].
  simpl. destruct (is_space c) eqn:E; simpl; [exact IH|now rewrite E].
Qed.

Lemma span_space_0_cases (s : str) :
  span_space s = 0 -> s = [] \/ exists c s', s = c :: s' /\ is_space c = false.
Proof.
  destruct s as [|c s]; [now left|].
  simpl. destruct (is_space c) eqn:E; [discriminate|].
  intros _. right. now exists c, s.
Qed.

Lemma m_spaces_cons (c : char) (s : str) :
  m_spaces (c :: s) =
    if is_space c then Some (S (span_space s), [SPACE]) else None.
Proof. unfold m_spaces. simpl. now destruct (is_space c). Qed.

Lemma collapse_spaces_cons (c : char) (s : str) :
  collapse_spaces (c :: s) =
    if is_space c
    then SPACE :: collapse_spaces (drop (span_space s) s)
    else c :: collapse_spaces s.
Proof.
  unfold collapse_spaces. rewrite re_sub_cons, m_spaces_cons.
  now destruct (is_space c).
Qed.

Lemma span_space_collapse (s : str) :
  span_space s = 0 -> span_space (collapse_spaces s) = 0.
Proof.
  intros [->|(c & s' & -> & E)]%span_space_0_cases; [reflexivity|].
  rewrite collapse_spaces_cons, E. simpl. now rewrite E.
Qed.

Lemma collapse_spaces_single_spaced (s : str) : single_spaced (collapse_spaces s).
Proof.
  remember (length s) as n eqn:Hn.
  revert s Hn. induction n as [n IH] using lt_wf_ind. intros s ->.
  destruct s as [|c s]; [exact I|].
  rewrite collapse_spaces_cons.
  destruct (is_space c) eqn:E; simpl; split.
  - intros _. split; [reflexivity|].
    apply span_space_collapse, span_space_drop.
  - eapply IH; [|reflexivity]. rewrite length_drop. simpl. lia.
  - rewrite E. discriminate.
  - eapply IH; [|reflexivity]. simpl. lia.
Qed.

Lemma collapse_spaces_fixed (t : str) : single_spaced t -> collapse_spaces t = t.
Proof.
  induction t as [|c t IH]; [reflexivity|].
  simpl. intros [Hc Ht].
  rewrite collapse_spaces_cons.
  destruct (is_space c) eqn:E.
  - destruct (Hc eq_refl) as [-> H0]. rewrite H0, drop_0. now rewrite IH.
  - now rewrite IH.
Qed.

Lemma single_spaced_lstrip (t : str) : single_spaced t -> single_spaced (lstrip t).
Proof.
  induction t as [|c t IH]; [trivial|].
  intros H. simpl. destruct (is_space c); [|exact H].
  apply IH, H.
Qed.

Lemma rstrip_cons (c : char) (s : str) :
  rstrip (c :: s) =
    match rstrip s with
    | [] => if is_space c then [] else [c]
    | r => c :: r
    end.
Proof. reflexivity. Qed.

Lemma span_space_rstrip (s : str) : span_space s = 0 -> span_space (rstrip s) = 0.
Proof.
  intros [->|(c & s' & -> & E)]%span_space_0_cases; [reflexivity|].
  rewrite rstrip_cons. destruct (rstrip s'); rewrite ?E; simpl; now rewrite E.
Qed.

Lemma single_spaced_rstrip (t : str) : single_spaced t -> single_spaced (rstrip t).
Proof.
  induction t as [|c t IH]; [trivial|].
  intros [Hc Ht]. rewrite rstrip_cons.
  specialize (IH Ht).
  destruct (rstrip t) as [|d r] eqn:Er.
  - destruct (is_space c) eqn:E; simpl; [exact I|].
    split; [|exact I]. congruence.
  - split; [|exact IH].
    intros Hs. destruct (Hc Hs) as [-> H0]. split; [reflexivity|].
    rewrite <- Er. now apply span_space_rstrip.
Qed.

Lemma rstrip_idempotent (s : str) : rstrip (rstrip s) = rstrip s.
Proof.
  induction s as [|c s IH]; [reflexivity|].
  rewrite rstrip_cons.
  destruct (rstrip s) as [|d r] eqn:Er.
  - destruct (is_space c) eqn:E; [reflexivity|].
    simpl. now rewrite E.
  - rewrite rstrip_cons, IH. reflexivity.
Qed.

Lemma span_space_lstrip (s : str) : span_space (lstrip s) = 0.
Proof.
  induction s as [|c s IH]; [reflexivity|].
  simpl. destruct (is_space c) eqn:E; [exact IH|].
  simpl. now rewrite E.
Qed.

Lemma lstrip_fixed (s : str) : span_space s = 0 -> lstrip s = s.
Proof.
  intros [->|(c & s' & -> & E)]%span_space_0_cases; [reflexivity|].
  simpl. now rewrite E.
Qed.

Lemma strip_idempotent (s : str) : strip (strip s) = strip s.
Proof.
  unfold strip.
  rewrite (lstrip_fixed (rstrip (lstrip s))).
  - apply rstrip_idempotent.
  - apply span_space_rstrip, span_space_lstrip.
Qed.

Lemma single_spaced_strip (t : str) : single_spaced t -> single_spaced (strip t).
Proof. intros H. now apply single_spaced_rstrip, single_spaced_lstrip. Qed.

Lemma replace_newline_fixed (t : str) :
  single_spaced t -> replace_char NEWLINE SPACE t = t.
Proof.
  induction t as [|c t IH]; [reflexivity|].
  intros [Hc Ht]. simpl. rewrite (IH Ht).
  destruct (N.eqb_spec c NEWLINE) as [->|_]; [|reflexivity].
  now destruct (Hc eq_refl).
Qed.

Lemma remove_char_absent (a : char) (s : str) :
  contains a s = false -> remove_char a s = s.
Proof.
  induction s as [|c s IH]; [reflexivity|].
  simpl. intros [H1 H2]%orb_false_iff. rewrite H1. now rewrite IH.
Qed.

(** ** Idempotence of the unescaper *)

Lemma unescape_shape (s : str) :
  _unescape_latex s = [] \/
  exists u, _unescape_latex s = strip (collapse_spaces u).
Proof.
  destruct s as [|c s]; [now left|].
  right. eexists. reflexivity.
Qed.

(** A normalised text without macros and braces is a fixed point. *)
Lemma unescape_fixed (t : str) :
  single_spaced t -> strip t = t ->
  has_macro t = false -> has_brace t = false ->
  _unescape_latex t = t.
Proof.
  intros Hss Hst Hm Hb.
  unfold has_macro in Hm.
  apply orb_false_iff in Hm as [Hm Hum].
  apply orb_false_iff in Hm as [Hm Hti].
  apply orb_false_iff in Hm as [Hac Hgr].
  apply orb_false_iff in Hb as [Hl Hr].
  destruct t as [|c t'] eqn:Et; [reflexivity|].
  rewrite <- Et in *; clear Et.
  transitivity (strip (collapse_spaces (remove_char RBRACE (remove_char LBRACE
    (re_sub m_umlaut (re_sub m_tilde (re_sub m_grave (re_sub m_acute
      (replace_char NEWLINE SPACE t)))))))));
    [now destruct t|].
  rewrite (replace_newline_fixed t Hss).
  rewrite (re_sub_no_match _ _ Hac), (re_sub_no_match _ _ Hgr),
    (re_sub_no_match _ _ Hti), (re_sub_no_match _ _ Hum).
  rewrite (remove_char_absent _ _ Hl), (remove_char_absent _ _ Hr).
  now rewrite (collapse_spaces_fixed t Hss).
Qed.

(** C4: applying the unescaper to its own output changes nothing, once
    that output holds no accent macro and no brace. *)
Theorem unescape_idempotent (s : str) :
  has_macro (_unescape_latex s) = false ->
  has_brace (_unescape_latex s) = false ->
  _unescape_latex (_unescape_latex s) = _unescape_latex s.
Proof.
  intros Hm Hb. apply unescape_fixed; trivial.
  - destruct (unescape_shape s) as [->|[u ->]]; [exact I|].
    apply single_spaced_strip, collapse_spaces_single_spaced.
  - destruct (unescape_shape s) as [->|[u ->]]; [reflexivity|].
    apply strip_idempotent.
Qed.

Lemma unescape_idempotent_witness :
  has_macro (_unescape_latex (py "{P\'erez}   and{ }\~Nu")) = false
  /\ has_brace (_unescape_latex (py "{P\'erez}   and{ }\~Nu")) = false
  /\ _unescape_latex (_unescape_latex (py "{P\'erez}   and{ }\~Nu"))
     = _unescape_latex (py "{P\'erez}   and{ }\~Nu").
Proof.
  split; [reflexivity|]. split; [reflexivity|].
  apply (unescape_idempotent (py "{P\'erez}   and{ }\~Nu")); reflexivity.
Defined.

(** The condition matters: a macro can appear when braces are removed,
    and the second pass then rewrites it. *)
Example unescape_macro_reappears :
  _unescape_latex (py "\{'a}") = py "\'a"
  /\ _unescape_latex (_unescape_latex (py "\{'a}")) = [225%N].
Proof. split; reflexivity. Qed.

(** ** Tokens and initials *)

Lemma cons_token_tokens (t : str) (ts : list str) :
  span_space t = 0 -> Forall is_token ts -> Forall is_token (cons_token t ts).
Proof.
  intros [->|(c & t' & -> & E)]%span_space_0_cases Hts; [exact Hts|].
  simpl. constructor; [|exact Hts]. now exists c, t'.
Qed.

Lemma split_scan_tokens (s : str) :
  span_space (fst (split_scan s)) = 0 /\ Forall is_token (snd (split_scan s)).
Proof.
  induction s as [|c s [IH1 IH2]]; [split; [reflexivity|constructor]|].
  simpl. destruct (split_scan s) as [t ts]; simpl in *.
  destruct (is_space c) eqn:E; simpl.
  - split; [reflexivity|]. now apply cons_token_tokens.
  - rewrite E. now split.
Qed.

Lemma split_ws_tokens (s : str) : Forall is_token (split_ws s).
Proof.
  unfold split_ws. pose proof (split_scan_tokens s) as [H1 H2].
  destruct (split_scan s) as [t ts]. now apply cons_token_tokens.
Qed.

Lemma rstrip_snoc (s : str) (d : char) :
  is_space d = false -> rstrip (s ++ [d]) = s ++ [d].
Proof.
  intros E. induction s as [|c s IH]; simpl; [now rewrite E|].
  rewrite IH. now destruct s.
Qed.

Lemma initials_loop (ts : list str) (acc : str) :
  Forall is_token ts ->
  fold_left (fun acc token =>
               match token with
               | [] => acc
               | c :: _ => acc ++ [SPACE; c; DOT]
               end) ts acc
  = acc ++ concat (map (fun t => SPACE :: initial t) ts).
Proof.
  intros H. revert acc. induction H as [|t ts (c & t' & -> & _) _ IH]; intros acc.
  - simpl. now rewrite app_nil_r.
  - simpl. rewrite IH. now rewrite <- app_assoc.
Qed.

Lemma initials_joined (ts : list str) :
  Forall is_token ts ->
  concat (map (fun t => SPACE :: initial t) ts) =
    match ts with
    | [] => []
    | _ => SPACE :: join [SPACE] (map initial ts)
    end.
Proof.
  induction 1 as [|t ts (c & t' & -> & _) Hts IH]; [reflexivity|].
  simpl. rewrite IH. now destruct ts.
Qed.

Lemma initials_ends (t : str) (ts : list str) :
  Forall is_token (t :: ts) ->
  exists c r, is_space c = false /\
    join [SPACE] (map initial (t :: ts)) = c :: r ++ [DOT].
Proof.
  revert t. induction ts as [|t2 ts IH]; intros t Ht.
  - apply Forall_cons in Ht as [(c & t' & -> & E) _].
    exists c, []. now split.
  - apply Forall_cons in Ht as [(c & t' & -> & E) Hts].
    destruct (IH t2 Hts) as (c2 & r2 & _ & Hj).
    exists c, (DOT :: SPACE :: c2 :: r2). split; [exact E|].
    change (join [SPACE] (map initial ((c :: t') :: t2 :: ts)))
      with ([c; DOT] ++ [SPACE] ++ join [SPACE] (map initial (t2 :: ts))).
    now rewrite Hj.
Qed.

(** The loop and the [strip] after it compute the initials of the
    specification. *)
Lemma initials_of_spec (first : str) : initials_of first = initials_spec first.
Proof.
  unfold initials_of, initials_spec.
  pose proof (split_ws_tokens first) as Hts.
  rewrite (initials_loop _ [] Hts), app_nil_l, (initials_joined _ Hts).
  destruct (split_ws first) as [|t ts]; [reflexivity|].
  destruct (initials_ends t ts Hts) as (c & r & E & ->).
  unfold strip. simpl lstrip. rewrite E.
  change (c :: r ++ [DOT]) with ((c :: r) ++ [DOT]).
  now apply rstrip_snoc.
Qed.

Lemma format_name_render (p last first : str) :
  split_name (_unescape_latex (strip p)) = Ok (last, first) ->
  format_name p = Ok (render_name last first).
Proof.
  intros H. unfold format_name, render_name. rewrite H. simpl.
  rewrite initials_of_spec. now destruct (initials_spec first).
Qed.

Lemma contains_app (c : char) (a b : str) :
  contains c (a ++ b) = contains c a || contains c b.
Proof. apply existsb_app. Qed.

Lemma contains_head (c : char) (b : str) : contains c (c :: b) = true.
Proof. unfold contains. cbn [existsb]. now rewrite N.eqb_refl. Qed.

Lemma split_once_first (c : char) (a b : str) :
  contains c a = false -> split_once c (a ++ c :: b) = (a, b).
Proof.
  induction a as [|d a IH]; simpl.
  - now rewrite N.eqb_refl.
  - intros [H1 H2]%orb_false_iff. now rewrite H1, IH.
Qed.

Lemma unescape_trimmed (s : str) : strip (_unescape_latex s) = _unescape_latex s.
Proof.
  destruct (unescape_shape s) as [->|[u ->]]; [reflexivity|].
  apply strip_idempotent.
Qed.

(** C7: let q be the segment, unescaped and trimmed.  When q has a
    comma, the text before the first comma, trimmed, is the last name and
    the text after it, trimmed, the first name.  Without a comma, a
    single token is the last name and the first name is empty; of
    several tokens the final one is the last name and the ones before it,
    joined by spaces, the first name.  The result is the last name alone
    when there are no initials, else the last name, a comma and the
    initials: the first character of each token of the first name with a
    period, joined by spaces.  The single token Smith gives Smith. *)
Theorem format_name_spec (p : str) :
  let q := _unescape_latex (strip p) in
  strip q = q
  /\ (forall a b, q = a ++ COMMA :: b -> contains COMMA a = false ->
        format_name p = Ok (render_name (strip a) (strip b)))
  /\ (contains COMMA q = false -> forall t, split_ws q = [t] ->
        format_name p = Ok t)
  /\ (contains COMMA q = false -> forall t front l,
        split_ws q = t :: front ++ [l] ->
        format_name p = Ok (render_name l (join [SPACE] (t :: front))))
  /\ format_name (py "Smith") = Ok (py "Smith").
Proof.
  intros q. split; [apply unescape_trimmed|].
  split; [|split; [|split; [|reflexivity]]].
  - intros a b Hq Ha. apply format_name_render. fold q.
    unfold split_name.
    assert (Hc : contains COMMA q = true).
    { rewrite Hq, contains_app, contains_head. apply orb_true_r. }
    rewrite Hc, Hq, split_once_first by exact Ha. reflexivity.
  - intros Hc t Ht.
    assert (H : format_name p = Ok (render_name t [])).
    { apply format_name_render. fold q. unfold split_name.
      now rewrite Hc, Ht. }
    exact H.
  - intros Hc t front l Ht. apply format_name_render. fold q.
    unfold split_name. rewrite Hc, Ht.
    change (t :: front ++ [l]) with ((t :: front) ++ [l]).
    rewrite py_last_snoc, py_init_snoc.
    now destruct front.
Qed.

Lemma format_name_spec_witness :
  format_name (py " Smith ,  John  Q ") = Ok (py "Smith, J. Q.")
  /\ format_name (py "Plato") = Ok (py "Plato")
  /\ format_name (py "John Q Smith") = Ok (py "Smith, J. Q.").
Proof.
  split; [|split].
  - destruct (format_name_spec (py " Smith ,  John  Q ")) as (_ & H & _).
    exact (H (py "Smith ") (py " John Q") eq_refl eq_refl).
  - destruct (format_name_spec (py "Plato")) as (_ & _ & H & _).
    exact (H eq_refl (py "Plato") eq_refl).
  - destruct (format_name_spec (py "John Q Smith")) as (_ & _ & _ & H & _).
    exact (H eq_refl (py "John") [py "Q"] (py "Smith") eq_refl).
Defined.

(** ** The reference line *)

Lemma py_plain_not_author (k : string) : In k plain_fields -> py k <> py "author".
Proof.
  intros [<-|[<-|[<-|[<-|[<-|[]]]]]]; intros H; vm_compute in H; discriminate.
Qed.

Lemma get_delete_other (fields : gmap str str) (k k' : string) :
  py k <> py k' -> get (delete (py k) fields) k' = get fields k'.
Proof. intros H. unfold get. now rewrite lookup_delete_ne. Qed.

Lemma clean_delete (fields : gmap str str) (k k' : string) :
  clean fields k = [] -> clean (delete (py k) fields) k' = clean fields k'.
Proof.
  intros H. unfold clean in *.
  destruct (decide (py k = py k')) as [E|E].
  - unfold get in *. rewrite <- E, lookup_delete_eq. now rewrite H.
  - now rewrite get_delete_other.
Qed.

(** C10: a field among year, title, journal, volume and number whose
    value unescapes and trims to the empty string is rendered as if it
    were absent: the line computed, and what is printed, are those of the
    mapping without the field. *)
Theorem blank_field_as_absent (fields : gmap str str) (k : string) :
  In k plain_fields ->
  clean fields k = [] ->
  apa_line fields = apa_line (delete (py k) fields)
  /\ forall w, print_reference fields w = print_reference (delete (py k) fields) w.
Proof.
  intros Hk Hb.
  assert (H : apa_line fields = apa_line (delete (py k) fields)).
  { unfold apa_line.
    rewrite (get_delete_other fields k "author") by now apply py_plain_not_author.
    now rewrite !(clean_delete fields k). }
  split; [exact H|].
  intros w. unfold print_reference. now rewrite H.
Qed.

Lemma blank_field_as_absent_witness :
  let fields : gmap str str :=
    <[py "year" := py "{ }"]> (<[py "title" := py "A Study"]> ∅) in
  apa_line fields = apa_line (delete (py "year") fields)
  /\ forall w, print_reference fields w = print_reference (delete (py "year") fields) w.
Proof.
  intros fields.
  apply (blank_field_as_absent fields "year").
  - simpl. tauto.
  - vm_compute. reflexivity.
Defined.

Lemma add_part_app (x piece apa : str) :
  add_part x piece apa = apa ++ (if nonempty x then piece else []).
Proof. destruct x; simpl; [now rewrite app_nil_r|reflexivity]. Qed.


(** *** Collapsing and trimming, as tokens joined by single spaces *)















(** The complete entry of the specification. *)
Example apa_line_full_entry :
  apa_line (<[py "author" := py "John Smith and Jane Doe"]>
            (<[py "title" := py "A Study"]>
             (<[py "year" := py "2020"]>
              (<[py "journal" := py "Journal of Things"]>
               (<[py "volume" := py "5"]>
                (<[py "number" := py "2"]> ∅))))))
  = Ok (py "Smith, J., & Doe, J. (2020). A Study. Journal of Things, 5(2).").
Proof. vm_compute. reflexivity. Qed.

(** ** A failed parse *)

Section ParseFailure.

Variable loads : str -> result (list (list (str * str))).
Variable lower : str -> str.
Variable help_text : list str.
Variable traceback : exn -> list str.

Lemma parse_raises (paper : str) (e : exn) (w : world) :
  paper <> [] -> loads paper = Raise e ->
  _parse_bib_fields loads lower paper w = (∅, print_err (parse_diagnostic e) w).
Proof.
  intros Hne He. unfold _parse_bib_fields. rewrite He.
  now destruct paper.
Qed.

Lemma paper_from_bib_parse_raises (paper : str) (e : exn) (w : world) :
  paper <> [] -> loads paper = Raise e ->
  PaperFromBib loads lower paper w =
    (World (stdout w ++ [[]]) (stderr w ++ [parse_diagnostic e]), Ok tt).
Proof.
  intros Hne He. unfold PaperFromBib.
  now rewrite (parse_raises paper e w Hne He).
Qed.

End ParseFailure.

(** C5: when the parser raises on the entry text, the exception is
    caught, the field mapping is empty and the diagnostic is the only
    thing written, to the error stream; the program prints one line, the
    empty one, to standard output and ends with status 0. *)
Theorem parse_failure_recovered
    (loads : str -> result (list (list (str * str)))) (lower : str -> str)
    (help_text : list str) (traceback : exn -> list str)
    (i : invocation) (paper : str) (e : exn) (w : world) :
  paper <> [] ->
  loads paper = Raise e ->
  delivers i paper ->
  _parse_bib_fields loads lower paper w = (∅, print_err (parse_diagnostic e) w)
  /\ main loads lower help_text traceback i w =
       (World (stdout w ++ [[]]) (stderr w ++ [parse_diagnostic e]), 0).
Proof.
  intros Hne He Hd.
  split; [now apply parse_raises|].
  unfold main.
  destruct Hd as [Ht|[(Ht & path & Hf & Hr)|(Ht & Hf & Htty & Hin)]]; rewrite Ht.
  - now rewrite (paper_from_bib_parse_raises loads lower paper e w Hne He).
  - rewrite Hf, Hr.
    now rewrite (paper_from_bib_parse_raises loads lower paper e w Hne He).
  - rewrite Hf, Htty, Hin.
    now rewrite (paper_from_bib_parse_raises loads lower paper e w Hne He).
Qed.

Lemma parse_failure_recovered_witness :
  let loads := fun _ : str => Raise (A := list (list (str * str)))
                                (LibraryError (py "Expected } at line 1")) in
  let i := Invocation (Some (py "@article{k, title = {A")) None
             (fun _ => Raise IndexError) true [] in
  main loads (fun k => k) [] (fun _ => []) i (World [] []) =
    (World [[]] [py "Error parsing BibTeX with bibtexparser: Expected } at line 1"], 0).
Proof.
  intros loads i.
  refine (proj2 (parse_failure_recovered loads (fun k => k) [] (fun _ => []) i
                   (py "@article{k, title = {A")
                   (LibraryError (py "Expected } at line 1")) (World [] [])
                   _ _ _)).
  - discriminate.
  - reflexivity.
  - left. reflexivity.
Defined.

(** ** Splitting the author field *)

Lemma split_differs_from_literal :
  re_split m_and (py "Ann Lee  and Bo Chen") = [py "Ann Lee"; py "Bo Chen"]
  /\ split_literal_and (py "Ann Lee  and Bo Chen") = [py "Ann Lee "; py "Bo Chen"]
  /\ re_split m_and (py "Ann Lee" ++ [NEWLINE] ++ py "and Bo Chen")
     = [py "Ann Lee"; py "Bo Chen"]
  /\ split_literal_and (py "Ann Lee" ++ [NEWLINE] ++ py "and Bo Chen")
     = [py "Ann Lee" ++ [NEWLINE] ++ py "and Bo Chen"]
  /\ re_split m_and (py "Ann Lee  and Bo Chen")
     <> split_literal_and (py "Ann Lee  and Bo Chen").
Proof. repeat split. discriminate. Qed.

Lemma span_space_take (s : str) :
  Forall (fun c => is_space c = true) (take (span_space s) s).
Proof.
  induction s as [|c s IH]; [constructor|].
  simpl. destruct (is_space c) eqn:E; simpl; [|constructor].
  now constructor.
Qed.

Lemma span_space_app (w y : str) :
  Forall (fun c => is_space c = true) w ->
  span_space (w ++ y) = length w + span_space y.
Proof.
  induction 1 as [|c w Hc _ IH]; [reflexivity|].
  simpl. now rewrite Hc, IH.
Qed.

Lemma span_space_length (s : str) : span_space s <= length s.
Proof.
  induction s as [|c s IH]; simpl; [lia|].
  destruct (is_space c); simpl; lia.
Qed.

(** A match of [m_and] is a separator, and what follows it does not
    start with whitespace. *)
Lemma m_and_sound (s : str) (n : nat) :
  m_and s = Some n ->
  0 < n /\ and_separator (take n s) /\ span_space (drop n s) = 0.
Proof.
  unfold m_and.
  destruct (span_space s) as [|k1] eqn:E1; [discriminate|].
  remember (S k1) as n1 eqn:En1.
  destruct (drop n1 s) as [|a [|b [|d r]]] eqn:Ed; try discriminate.
  destruct (N.eqb_spec a 97) as [->|]; [|discriminate].
  destruct (N.eqb_spec b 110) as [->|]; [|discriminate].
  destruct (N.eqb_spec d 100) as [->|]; [|discriminate].
  cbn [andb].
  destruct (span_space r) as [|k2] eqn:E2; [discriminate|].
  remember (S k2) as n2 eqn:En2.
  intros [= <-].
  assert (Hs : s = take n1 s ++ py "and" ++ take n2 r ++ drop n2 r).
  { rewrite take_drop. change (py "and" ++ r) with (97 :: 110 :: 100 :: r)%N.
    rewrite <- Ed. now rewrite take_drop. }
  assert (L1 : length (take n1 s) = n1).
  { rewrite length_take. pose proof (span_space_length s). lia. }
  assert (L2 : length (take n2 r) = n2).
  { rewrite length_take. pose proof (span_space_length r). lia. }
  assert (Ht : take (n1 + 3 + n2) s = take n1 s ++ py "and" ++ take n2 r).
  { rewrite Hs at 1.
    rewrite !app_assoc.
    rewrite take_app_length'; [now rewrite <- !app_assoc|].
    rewrite !length_app, L1, L2. reflexivity. }
  assert (Hd : drop (n1 + 3 + n2) s = drop n2 r).
  { rewrite Hs at 1.
    rewrite !app_assoc.
    rewrite drop_app_length'; [reflexivity|].
    rewrite !length_app, L1, L2. reflexivity. }
  split; [lia|]. split.
  - rewrite Ht. exists (take n1 s), (take n2 r).
    split; [intros H; rewrite H in L1; simpl in L1; lia|].
    split; [intros H; rewrite H in L2; simpl in L2; lia|].
    split; [rewrite <- E1; apply span_space_take|].
    split; [rewrite <- E2; apply span_space_take|reflexivity].
  - rewrite Hd, <- E2. apply span_space_drop.
Qed.

(** Where a separator starts, [m_and] matches. *)
Lemma m_and_complete (sep y : str) :
  and_separator sep -> m_and (sep ++ y) <> None.
Proof.
  intros (w1 & w2 & H1 & H2 & F1 & F2 & ->).
  unfold m_and.
  rewrite <- !app_assoc.
  rewrite (span_space_app w1 _ F1).
  change (span_space (py "and" ++ w2 ++ y)) with 0.
  rewrite Nat.add_0_r.
  destruct w1 as [|c1 w1]; [congruence|].
  cbn [length].
  rewrite (drop_app_length (c1 :: w1)).
  change (py "and" ++ w2 ++ y) with (97 :: 110 :: 100 :: w2 ++ y)%N.
  cbn [N.eqb Pos.eqb andb].
  rewrite (span_space_app w2 _ F2).
  destruct w2 as [|c2 w2]; [congruence|].
  simpl. discriminate.
Qed.

Lemma separator_at_tail (c : char) (s : str) (i : nat) :
  separator_at (c :: s) (S i) -> separator_at s i.
Proof.
  intros (x & sep & y & Hsep & Hs & Hl).
  destruct x as [|c' x]; [discriminate|].
  injection Hs as _ Hs. injection Hl as Hl.
  now exists x, sep, y.
Qed.

Lemma no_separator_at_head (c : char) (s : str) :
  m_and (c :: s) = None -> ~ separator_at (c :: s) 0.
Proof.
  intros Hm (x & sep & y & Hsep & Hs & Hl).
  destruct x; [|discriminate]. simpl in Hs.
  rewrite Hs in Hm. now apply (m_and_complete sep y).
Qed.

(** One more character before the first separator. *)
Lemma split_at_and_add_head (c : char) (s : str) (pieces : list str) :
  ~ separator_at (c :: s) 0 ->
  split_at_and s pieces ->
  split_at_and (c :: s) (add_head c pieces).
Proof.
  intros H0 H. destruct H as [s Hno|p sep rest pieces Hsep Hrest Hfirst Hsplit].
  - simpl. apply split_at_and_last.
    intros [|i]; [exact H0|].
    intros Hi%separator_at_tail. now apply (Hno i).
  - simpl. change (c :: p ++ sep ++ rest) with ((c :: p) ++ sep ++ rest).
    apply split_at_and_cons; trivial.
    intros [|i] Hi; [exact H0|].
    intros Ha%separator_at_tail. apply (Hfirst i); [simpl in Hi; lia|exact Ha].
Qed.

Lemma no_separator_nil (i : nat) : ~ separator_at [] i.
Proof.
  intros (x & sep & y & (w1 & w2 & H1 & _ & _ & _ & ->) & Hs & _).
  destruct x; [|discriminate]. destruct w1; [congruence|discriminate].
Qed.

Lemma separator_at_here (p sep rest : str) :
  and_separator sep -> separator_at (p ++ sep ++ rest) (length p).
Proof. intros H. now exists p, sep, rest. Qed.

Lemma separator_parts_unique (w1 w2 y w1' w2' y' : str) :
  Forall (fun c => is_space c = true) w1 ->
  Forall (fun c => is_space c = true) w2 ->
  Forall (fun c => is_space c = true) w1' ->
  Forall (fun c => is_space c = true) w2' ->
  span_space y = 0 -> span_space y' = 0 ->
  w1 ++ py "and" ++ w2 ++ y = w1' ++ py "and" ++ w2' ++ y' ->
  w1 = w1' /\ w2 = w2' /\ y = y'.
Proof.
  intros F1 F2 F1' F2' Hy Hy' E.
  assert (L1 : length w1 = length w1').
  { apply (f_equal span_space) in E.
    rewrite (span_space_app w1 _ F1), (span_space_app w1' _ F1') in E.
    change (span_space (py "and" ++ w2 ++ y)) with 0 in E.
    change (span_space (py "and" ++ w2' ++ y')) with 0 in E.
    lia. }
  apply app_inj_1 in E as [-> E]; [|exact L1].
  apply app_inv_head in E.
  assert (L2 : length w2 = length w2').
  { apply (f_equal span_space) in E.
    rewrite (span_space_app w2 _ F2), (span_space_app w2' _ F2') in E.
    lia. }
  apply app_inj_1 in E as [-> ->]; [|exact L2].
  now repeat split.
Qed.

(** The segments between the leftmost separators are determined by the
    text. *)
Lemma split_at_and_unique (s : str) (l1 l2 : list str) :
  split_at_and s l1 -> split_at_and s l2 -> l1 = l2.
Proof.
  intros H1. revert l2.
  induction H1 as [s Hno|p sep rest pieces Hsep Hrest Hfirst Hsplit IH];
    intros l2 H2.
  - inversion H2 as [s' Hno' Es|p' sep' rest' pieces' Hsep' Hrest' Hfirst' Hsplit' Es];
      [reflexivity|].
    subst s. destruct (Hno (length p')). now apply separator_at_here.
  - inversion H2 as [s' Hno' Es|p' sep' rest' pieces' Hsep' Hrest' Hfirst' Hsplit' Es].
    + destruct (Hno' (length p)). now apply separator_at_here.
    + assert (L : length p = length p').
      { destruct (Nat.lt_trichotomy (length p) (length p')) as [Hlt|[Heq|Hgt]];
          [|exact Heq|].
        - destruct (Hfirst' _ Hlt). rewrite Es. now apply separator_at_here.
        - destruct (Hfirst _ Hgt). rewrite <- Es. now apply separator_at_here. }
      apply app_inj_1 in Es as [-> Es]; [|now symmetry].
      destruct Hsep as (w1 & w2 & _ & _ & F1 & F2 & ->).
      destruct Hsep' as (w1' & w2' & _ & _ & F1' & F2' & ->).
      rewrite <- !app_assoc in Es.
      apply separator_parts_unique in Es as (-> & -> & ->); trivial.
      f_equal. now apply IH.
Qed.

Lemma re_split_and_splits (s : str) : split_at_and s (re_split m_and s).
Proof.
  remember (length s) as n eqn:Hn.
  revert s Hn. induction n as [n IH] using lt_wf_ind. intros s ->.
  destruct s as [|c s].
  - apply split_at_and_last, no_separator_nil.
  - rewrite re_split_cons.
    destruct (m_and (c :: s)) as [k|] eqn:Hm.
    + destruct (m_and_sound _ _ Hm) as (Hk & Hsep & Hrest).
      destruct k as [|k]; [lia|].
      rewrite <- (take_drop (S k) (c :: s)) at 1.
      change (drop k s) with (drop (S k) (c :: s)).
      apply (split_at_and_cons [] _ _ _ Hsep Hrest).
      * simpl. lia.
      * eapply IH; [|reflexivity]. rewrite length_drop. simpl. lia.
    + apply split_at_and_add_head.
      * now apply no_separator_at_head.
      * eapply IH; [|reflexivity]. simpl. lia.
Qed.

(** C2, amended: the field is split exactly at its successive leftmost
    separators, a separator being the word and, in lower case, between
    two runs of one or more whitespace characters of any kind, the run
    after the word taken in full; the segments are the texts in between,
    in order, and no other list of segments fits this description. *)
Theorem re_split_and_spec (s : str) (pieces : list str) :
  re_split m_and s = pieces <-> split_at_and s pieces.
Proof.
  split.
  - intros <-. apply re_split_and_splits.
  - intros H. apply (split_at_and_unique s); [apply re_split_and_splits|exact H].
Qed.

Lemma re_split_and_spec_witness :
  split_at_and (py "Ann Lee  and Bo Chen") [py "Ann Lee"; py "Bo Chen"].
Proof.
  apply (proj1 (re_split_and_spec (py "Ann Lee  and Bo Chen")
                  [py "Ann Lee"; py "Bo Chen"])).
  reflexivity.
Defined.

(** * Further properties of the unescaper *)

(** ** What the whitespace functions keep *)

Section Keeps.

Variable P : char -> Prop.

Lemma Forall_lstrip (s : str) : Forall P s -> Forall P (lstrip s).
Proof.
  induction 1 as [|c s Hc Hs IH]; [constructor|].
  simpl. destruct (is_space c); [exact IH|now constructor].
Qed.

Lemma Forall_rstrip (s : str) : Forall P s -> Forall P (rstrip s).
Proof.
  induction 1 as [|c s Hc Hs IH]; [constructor|].
  rewrite rstrip_cons. destruct (rstrip s).
  - destruct (is_space c); repeat constructor; trivial.
  - now constructor.
Qed.

Lemma Forall_strip (s : str) : Forall P s -> Forall P (strip s).
Proof. intros H. now apply Forall_rstrip, Forall_lstrip. Qed.

Lemma Forall_remove_char (a : char) (s : str) :
  Forall P s -> Forall P (remove_char a s).
Proof.
  induction 1 as [|c s Hc Hs IH]; [constructor|].
  simpl. destruct (c =? a)%N; [exact IH|now constructor].
Qed.

Lemma Forall_collapse_spaces (s : str) :
  P SPACE -> Forall P s -> Forall P (collapse_spaces s).
Proof.
  intros Hsp.
  remember (length s) as n eqn:Hn.
  revert s Hn. induction n as [n IH] using lt_wf_ind. intros s -> H.
  destruct s as [|c s]; [constructor|].
  apply Forall_cons in H as [Hc Hs].
  rewrite collapse_spaces_cons.
  destruct (is_space c); constructor; trivial.
  - eapply IH; [|reflexivity|now apply Forall_drop].
    rewrite length_drop. simpl. lia.
  - eapply IH; [|reflexivity|exact Hs]. simpl. lia.
Qed.

End Keeps.

Lemma contains_false_iff (c : char) (s : str) :
  contains c s = false <-> Forall (fun d => d <> c) s.
Proof.
  induction s as [|d s IH]; simpl; [split; [constructor|reflexivity]|].
  rewrite orb_false_iff, IH, Forall_cons, N.eqb_neq. tauto.
Qed.

Lemma remove_char_gone (a : char) (s : str) :
  Forall (fun d => d <> a) (remove_char a s).
Proof.
  induction s as [|c s IH]; [constructor|].
  simpl. destruct (N.eqb_spec c a); [exact IH|now constructor].
Qed.

(** X1: whatever the input, the unescaped text holds no brace. *)
Theorem unescape_no_brace (s : str) : has_brace (_unescape_latex s) = false.
Proof.
  unfold has_brace. apply orb_false_iff.
  destruct s as [|c s]; [now split|].
  unfold _unescape_latex.
  set (u := re_sub m_umlaut _).
  split; apply contains_false_iff, Forall_strip, Forall_collapse_spaces;
    try discriminate.
  - apply Forall_remove_char, remove_char_gone.
  - apply remove_char_gone.
Qed.

Lemma single_spaced_no_newline (t : str) :
  single_spaced t -> Forall (fun c => is_space c = true -> c = SPACE) t.
Proof.
  induction t as [|c t IH]; [constructor|].
  intros [Hc Ht]. constructor; [|now apply IH].
  intros H. now destruct (Hc H).
Qed.

Lemma strip_fixed_ends (t : str) :
  strip t = t -> span_space t = 0 /\ rstrip t = t.
Proof.
  intros H. assert (H0 : span_space t = 0).
  { rewrite <- H. apply span_space_rstrip, span_space_lstrip. }
  split; [exact H0|].
  unfold strip in H. now rewrite (lstrip_fixed t H0) in H.
Qed.

(** X2: the unescaped text is normalised for whitespace: its only
    whitespace characters are spaces (no newline, no tab), no two of
    them are adjacent, and it neither starts nor ends with one. *)
Theorem unescape_whitespace_normal (s : str) :
  Forall (fun c => is_space c = true -> c = SPACE) (_unescape_latex s)
  /\ single_spaced (_unescape_latex s)
  /\ span_space (_unescape_latex s) = 0
  /\ rstrip (_unescape_latex s) = _unescape_latex s.
Proof.
  assert (Hss : single_spaced (_unescape_latex s)).
  { destruct (unescape_shape s) as [->|[u ->]]; [exact I|].
    apply single_spaced_strip, collapse_spaces_single_spaced. }
  split; [now apply single_spaced_no_newline|].
  split; [exact Hss|].
  apply strip_fixed_ends, unescape_trimmed.
Qed.

(** ** Text without a backslash *)

Lemma m_acute_head (c : char) (s : str) : c <> BACKSLASH -> m_acute (c :: s) = None.
Proof.
  intros H%N.eqb_neq. destruct s as [|q [|c' r]]; try reflexivity.
  unfold m_acute. now rewrite H.
Qed.

Lemma m_macro_head (i : char) (cls : char -> bool) (f : char -> char)
    (c : char) (s : str) :
  c <> BACKSLASH -> m_macro i cls f (c :: s) = None.
Proof.
  intros H%N.eqb_neq. destruct s as [|q [|c' r]]; try reflexivity.
  unfold m_macro. now rewrite H.
Qed.

Section BackslashHead.

(** A pattern whose matches start with a backslash. *)
Variable m : str -> option (nat * str).
Hypothesis m_head : forall c s, c <> BACKSLASH -> m (c :: s) = None.

Lemma has_match_no_backslash (s : str) :
  Forall (fun c => c <> BACKSLASH) s -> has_match m s = false.
Proof using m_head.
  induction 1 as [|c s Hc Hs IH]; [reflexivity|].
  simpl. now rewrite (m_head c s Hc).
Qed.

Lemma re_sub_no_backslash (s : str) :
  Forall (fun c => c <> BACKSLASH) s -> re_sub m s = s.
Proof using m_head.
  intros H. now apply re_sub_no_match, has_match_no_backslash.
Qed.

Lemma re_sub_prefix (a s : str) :
  Forall (fun c => c <> BACKSLASH) a -> re_sub m (a ++ s) = a ++ re_sub m s.
Proof using m_head.
  induction 1 as [|c a Hc Ha IH]; [reflexivity|].
  simpl. rewrite re_sub_cons, (m_head c _ Hc). now rewrite IH.
Qed.

End BackslashHead.

Lemma accent_steps_no_backslash (s : str) :
  Forall (fun c => c <> BACKSLASH) s ->
  re_sub m_umlaut (re_sub m_tilde (re_sub m_grave (re_sub m_acute s))) = s.
Proof.
  intros H.
  rewrite (re_sub_no_backslash m_acute m_acute_head s H).
  rewrite (re_sub_no_backslash m_grave (m_macro_head _ _ _) s H).
  rewrite (re_sub_no_backslash m_tilde (m_macro_head _ _ _) s H).
  now rewrite (re_sub_no_backslash m_umlaut (m_macro_head _ _ _) s H).
Qed.

Lemma Forall_replace_char (P : char -> Prop) (a b : char) (s : str) :
  P b -> Forall P s -> Forall P (replace_char a b s).
Proof.
  intros Hb. induction 1 as [|c s Hc Hs IH]; [constructor|].
  simpl. constructor; [|exact IH]. now destruct (c =? a)%N.
Qed.

Lemma span_space_replace_newline (s : str) :
  span_space (replace_char NEWLINE SPACE s) = span_space s.
Proof.
  induction s as [|c s IH]; [reflexivity|].
  simpl. destruct (N.eqb_spec c NEWLINE) as [->|_]; [simpl; now rewrite IH|].
  destruct (is_space c); [now rewrite IH|reflexivity].
Qed.

Lemma drop_replace_char (a b : char) (n : nat) (s : str) :
  drop n (replace_char a b s) = replace_char a b (drop n s).
Proof.
  revert n. induction s as [|c s IH]; intros [|n]; try reflexivity.
  simpl. apply IH.
Qed.

(** Newlines are whitespace, so turning them into spaces first does not
    change what the collapse gives. *)
Lemma collapse_replace_newline (s : str) :
  collapse_spaces (replace_char NEWLINE SPACE s) = collapse_spaces s.
Proof.
  remember (length s) as n eqn:Hn.
  revert s Hn. induction n as [n IH] using lt_wf_ind. intros s ->.
  destruct s as [|c s]; [reflexivity|].
  change (replace_char NEWLINE SPACE (c :: s))
    with ((if (c =? NEWLINE)%N then SPACE else c) :: replace_char NEWLINE SPACE s).
  rewrite !collapse_spaces_cons.
  rewrite span_space_replace_newline, drop_replace_char.
  destruct (N.eqb_spec c NEWLINE) as [->|_].
  - simpl. f_equal. eapply IH; [|reflexivity]. rewrite length_drop. simpl. lia.
  - destruct (is_space c); f_equal.
    + eapply IH; [|reflexivity]. rewrite length_drop. simpl. lia.
    + eapply IH; [|reflexivity]. simpl. lia.
Qed.

Lemma remove_replace_newline (a : char) (s : str) :
  a <> NEWLINE -> a <> SPACE ->
  remove_char a (replace_char NEWLINE SPACE s)
  = replace_char NEWLINE SPACE (remove_char a s).
Proof.
  intros H1 H2. induction s as [|c s IH]; [reflexivity|].
  simpl. destruct (N.eqb_spec c NEWLINE) as [->|Hn].
  - destruct (N.eqb_spec SPACE a) as [E|_]; [congruence|].
    destruct (N.eqb_spec NEWLINE a) as [E|_]; [congruence|].
    simpl. now rewrite IH.
  - destruct (N.eqb_spec c a) as [_|_]; [exact IH|].
    simpl. destruct (N.eqb_spec c NEWLINE); [contradiction|]. now rewrite IH.
Qed.

Lemma unescape_backslash_free (s : str) :
  Forall (fun c => c <> BACKSLASH) s ->
  _unescape_latex s =
    strip (collapse_spaces (remove_char RBRACE (remove_char LBRACE s))).
Proof.
  intros H. destruct s as [|c s]; [reflexivity|].
  unfold _unescape_latex.
  rewrite accent_steps_no_backslash
    by (apply Forall_replace_char; [discriminate|exact H]).
  rewrite !remove_replace_newline by discriminate.
  now rewrite collapse_replace_newline.
Qed.

(** X3: on a text without a backslash the unescaper only removes the
    braces, collapses the runs of whitespace and trims. *)
Theorem unescape_without_backslash (s : str) :
  Forall (fun c => c <> BACKSLASH) s ->
  _unescape_latex s =
    strip (collapse_spaces (remove_char RBRACE (remove_char LBRACE s))).
Proof. apply unescape_backslash_free. Qed.

Lemma unescape_without_backslash_witness :
  _unescape_latex (py "{The}  {DNA} of  things ")
  = strip (collapse_spaces (remove_char RBRACE (remove_char LBRACE
      (py "{The}  {DNA} of  things ")))).
Proof.
  apply unescape_without_backslash.
  repeat (constructor; [discriminate|]). constructor.
Defined.

Lemma lstrip_all_space (s : str) :
  Forall (fun c => is_space c = true) s -> lstrip s = [].
Proof.
  induction 1 as [|c s Hc Hs IH]; [reflexivity|].
  simpl. now rewrite Hc.
Qed.

Lemma remove_braces_blank (s : str) :
  Forall (fun c => is_space c = true \/ c = LBRACE \/ c = RBRACE) s ->
  Forall (fun c => is_space c = true) (remove_char RBRACE (remove_char LBRACE s)).
Proof.
  induction 1 as [|c s Hc Hs IH]; [constructor|].
  simpl. destruct (N.eqb_spec c LBRACE) as [->|Hl]; [exact IH|].
  simpl. destruct (N.eqb_spec c RBRACE) as [->|Hr]; [exact IH|].
  constructor; [|exact IH]. destruct Hc as [Hc|[Hc|Hc]]; congruence.
Qed.

Lemma unescape_blank_text (s : str) :
  Forall (fun c => is_space c = true \/ c = LBRACE \/ c = RBRACE) s ->
  _unescape_latex s = [].
Proof.
  intros H.
  rewrite unescape_backslash_free.
  - unfold strip. rewrite lstrip_all_space; [reflexivity|].
    apply Forall_collapse_spaces; [reflexivity|].
    now apply remove_braces_blank.
  - eapply Forall_impl; [exact H|].
    intros c [Hc|[->| ->]]; try discriminate.
    intros ->. discriminate.
Qed.

(** X4: a value made of whitespace and braces only unescapes to the
    empty string. *)
Theorem unescape_blank (s : str) :
  Forall (fun c => is_space c = true \/ c = LBRACE \/ c = RBRACE) s ->
  _unescape_latex s = [].
Proof. apply unescape_blank_text. Qed.

Lemma unescape_blank_witness : _unescape_latex (py "{ {  } }") = [].
Proof.
  apply unescape_blank.
  repeat (constructor; [vm_compute; tauto|]). constructor.
Defined.

(** ** The length of the unescaped text *)

Section Shrinking.

(** A pattern whose replacement is no longer than the match. *)
Variable m : str -> option (nat * str).
Hypothesis m_shrinks :
  forall s n r, m s = Some (n, r) -> length r <= n /\ n <= length s.

Lemma re_sub_length (s : str) : length (re_sub m s) <= length s.
Proof using m_shrinks.
  remember (length s) as n eqn:Hn.
  revert s Hn. induction n as [n IH] using lt_wf_ind. intros s ->.
  destruct s as [|c s]; [reflexivity|].
  rewrite re_sub_cons.
  destruct (m (c :: s)) as [[[|k] r]|] eqn:Hm.
  - simpl. apply le_n_S. eapply IH; [|reflexivity]. simpl. lia.
  - destruct (m_shrinks _ _ _ Hm) as [H1 H2]. simpl in H2.
    rewrite length_app.
    assert (length (re_sub m (drop k s)) <= length (drop k s)).
    { eapply IH; [|reflexivity]. rewrite length_drop. simpl. lia. }
    rewrite length_drop in H. simpl. lia.
  - simpl. apply le_n_S. eapply IH; [|reflexivity]. simpl. lia.
Qed.

End Shrinking.

Lemma m_acute_shrinks (s : str) (n : nat) (r : str) :
  m_acute s = Some (n, r) -> length r <= n /\ n <= length s.
Proof.
  destruct s as [|b [|q [|c t]]]; try discriminate.
  unfold m_acute.
  destruct ((b =? BACKSLASH)%N && (q =? APOSTROPHE)%N); [|discriminate].
  destruct (c =? BACKSLASH)%N.
  - destruct t as [|d t]; [discriminate|].
    destruct (is_letter d); [|discriminate].
    intros [= <- <-]. simpl. lia.
  - destruct (is_letter c); [|discriminate].
    intros [= <- <-]. simpl. lia.
Qed.

Lemma m_macro_shrinks (i : char) (cls : char -> bool) (f : char -> char)
    (s : str) (n : nat) (r : str) :
  m_macro i cls f s = Some (n, r) -> length r <= n /\ n <= length s.
Proof.
  destruct s as [|b [|q [|c t]]]; try discriminate.
  unfold m_macro.
  destruct ((b =? BACKSLASH)%N && (q =? i)%N && cls c); [|discriminate].
  intros [= <- <-]. simpl. lia.
Qed.

Lemma m_spaces_shrinks (s : str) (n : nat) (r : str) :
  m_spaces s = Some (n, r) -> length r <= n /\ n <= length s.
Proof.
  unfold m_spaces. pose proof (span_space_length s) as H.
  destruct (span_space s) as [|k]; [discriminate|].
  intros [= <- <-]. simpl. lia.
Qed.

Lemma remove_char_length (a : char) (s : str) :
  length (remove_char a s) <= length s.
Proof.
  induction s as [|c s IH]; [reflexivity|].
  simpl. destruct (c =? a)%N; simpl; lia.
Qed.

Lemma lstrip_length (s : str) : length (lstrip s) <= length s.
Proof.
  induction s as [|c s IH]; [reflexivity|].
  simpl. destruct (is_space c); simpl; lia.
Qed.

Lemma rstrip_length (s : str) : length (rstrip s) <= length s.
Proof.
  induction s as [|c s IH]; [reflexivity|].
  rewrite rstrip_cons. destruct (rstrip s); [destruct (is_space c)|]; simpl in *; lia.
Qed.

(** X5: unescaping never makes a text longer. *)
Theorem unescape_length (s : str) : length (_unescape_latex s) <= length s.
Proof.
  destruct s as [|c s]; [reflexivity|].
  unfold _unescape_latex, strip, collapse_spaces.
  set (s0 := c :: s).
  etransitivity; [apply rstrip_length|].
  etransitivity; [apply lstrip_length|].
  etransitivity; [apply (re_sub_length _ m_spaces_shrinks)|].
  etransitivity; [apply remove_char_length|].
  etransitivity; [apply remove_char_length|].
  etransitivity; [apply (re_sub_length _ (m_macro_shrinks _ _ _))|].
  etransitivity; [apply (re_sub_length _ (m_macro_shrinks _ _ _))|].
  etransitivity; [apply (re_sub_length _ (m_macro_shrinks _ _ _))|].
  etransitivity; [apply (re_sub_length _ m_acute_shrinks)|].
  unfold replace_char. now rewrite length_map.
Qed.

(** ** Accent macros inside a word *)

Section AtBackslash.

Variable m : str -> option (nat * str).
Hypothesis m_head : forall c s, c <> BACKSLASH -> m (c :: s) = None.

(** The one match of a text whose only backslash starts it. *)
Lemma re_sub_at_match (a r rep : str) (k : nat) :
  Forall (fun c => c <> BACKSLASH) a ->
  m (BACKSLASH :: r) = Some (S k, rep) ->
  Forall (fun c => c <> BACKSLASH) (drop k r) ->
  re_sub m (a ++ BACKSLASH :: r) = a ++ rep ++ drop k r.
Proof using m_head.
  intros Ha Hm Hr.
  rewrite (re_sub_prefix m m_head a _ Ha), re_sub_cons, Hm.
  now rewrite (re_sub_no_backslash m m_head _ Hr).
Qed.

Lemma re_sub_at_no_match (a r : str) :
  Forall (fun c => c <> BACKSLASH) a ->
  m (BACKSLASH :: r) = None ->
  Forall (fun c => c <> BACKSLASH) r ->
  re_sub m (a ++ BACKSLASH :: r) = a ++ BACKSLASH :: r.
Proof using m_head.
  intros Ha Hm Hr.
  rewrite (re_sub_prefix m m_head a _ Ha), re_sub_cons, Hm.
  now rewrite (re_sub_no_backslash m m_head _ Hr).
Qed.

End AtBackslash.

Lemma plain_char_spec (c : char) :
  plain_char c = true ->
  is_space c = false /\ c <> BACKSLASH /\ c <> LBRACE /\ c <> RBRACE.
Proof.
  unfold plain_char. rewrite !andb_true_iff, !negb_true_iff, !N.eqb_neq. tauto.
Qed.

Lemma plain_no_backslash (t : str) :
  Forall (fun c => plain_char c = true) t -> Forall (fun c => c <> BACKSLASH) t.
Proof.
  intros H. eapply Forall_impl; [exact H|].
  intros c Hc. apply (plain_char_spec c Hc).
Qed.

Lemma replace_char_absent (a b : char) (s : str) :
  Forall (fun c => c <> a) s -> replace_char a b s = s.
Proof.
  induction 1 as [|c s Hc Hs IH]; [reflexivity|].
  simpl. rewrite IH. now destruct (N.eqb_spec c a).
Qed.

Lemma rstrip_no_space (t : str) :
  Forall (fun c => is_space c = false) t -> rstrip t = t.
Proof.
  induction 1 as [|c t Hc Ht IH]; [reflexivity|].
  rewrite rstrip_cons, IH, Hc. now destruct t.
Qed.

Lemma single_spaced_no_space (t : str) :
  Forall (fun c => is_space c = false) t -> single_spaced t.
Proof.
  induction 1 as [|c t Hc Ht IH]; [exact I|].
  split; [congruence|exact IH].
Qed.

(** A text of plain characters goes through the steps after the accent
    macros unchanged. *)
Lemma plain_text_kept (t : str) :
  Forall (fun c => plain_char c = true) t ->
  strip (collapse_spaces (remove_char RBRACE (remove_char LBRACE t))) = t.
Proof.
  intros H.
  assert (Hs : Forall (fun c => is_space c = false) t).
  { eapply Forall_impl; [exact H|]. intros c Hc. apply (plain_char_spec c Hc). }
  rewrite (remove_char_absent LBRACE t), (remove_char_absent RBRACE t).
  - rewrite collapse_spaces_fixed by now apply single_spaced_no_space.
    unfold strip. rewrite lstrip_fixed, rstrip_no_space; trivial.
    destruct Hs as [|c t Hc _]; [reflexivity|]. simpl. now rewrite Hc.
  - apply contains_false_iff. eapply Forall_impl; [exact H|].
    intros c Hc. apply (plain_char_spec c Hc).
  - apply contains_false_iff. eapply Forall_impl; [exact H|].
    intros c Hc. apply (plain_char_spec c Hc).
Qed.

Lemma unescape_unfold (s : str) :
  s <> [] ->
  _unescape_latex s =
    strip (collapse_spaces (remove_char RBRACE (remove_char LBRACE
      (re_sub m_umlaut (re_sub m_tilde (re_sub m_grave (re_sub m_acute
        (replace_char NEWLINE SPACE s)))))))).
Proof. now destruct s. Qed.

Lemma letter_facts (x : char) :
  is_letter x = true ->
  plain_char x = true /\ plain_char (accents x) = true
  /\ plain_char (umlaut_spec x) = true /\ accents x = acute_spec x
  /\ (x =? BACKSLASH)%N = false.
Proof.
  revert x. apply letter_cases.
  unfold letters; simpl.
  repeat (constructor; [vm_compute; repeat split; reflexivity|]).
  constructor.
Qed.

Lemma m_acute_here (x : char) (b : str) :
  is_letter x = true ->
  m_acute (BACKSLASH :: APOSTROPHE :: x :: b) = Some (3, [accents x]).
Proof.
  intros H. destruct (letter_facts x H) as (_ & _ & _ & _ & E).
  unfold m_acute. now rewrite !N.eqb_refl, E, H.
Qed.

Lemma m_acute_here_backslash (x : char) (b : str) :
  is_letter x = true ->
  m_acute (BACKSLASH :: APOSTROPHE :: BACKSLASH :: x :: b) = Some (4, [accents x]).
Proof. intros H. unfold m_acute. now rewrite !N.eqb_refl, H. Qed.

Lemma m_acute_other (q : char) (r : str) :
  q <> APOSTROPHE -> m_acute (BACKSLASH :: q :: r) = None.
Proof.
  intros H%N.eqb_neq. destruct r; [reflexivity|].
  unfold m_acute. now rewrite H, andb_false_r.
Qed.

Lemma m_macro_here (i : char) (cls : char -> bool) (f : char -> char)
    (x : char) (b : str) :
  cls x = true -> m_macro i cls f (BACKSLASH :: i :: x :: b) = Some (3, [f x]).
Proof. intros H. unfold m_macro. now rewrite !N.eqb_refl, H. Qed.

Lemma m_macro_other (i : char) (cls : char -> bool) (f : char -> char)
    (q : char) (r : str) :
  q <> i -> m_macro i cls f (BACKSLASH :: q :: r) = None.
Proof.
  intros H%N.eqb_neq. destruct r; [reflexivity|].
  unfold m_macro. now rewrite H, andb_false_r.
Qed.

Lemma accent_steps_tail (t : str) :
  Forall (fun c => c <> BACKSLASH) t ->
  re_sub m_umlaut (re_sub m_tilde (re_sub m_grave t)) = t.
Proof.
  intros H.
  rewrite (re_sub_no_backslash m_grave (m_macro_head _ _ _) t H).
  rewrite (re_sub_no_backslash m_tilde (m_macro_head _ _ _) t H).
  now rewrite (re_sub_no_backslash m_umlaut (m_macro_head _ _ _) t H).
Qed.

(** The text around a macro, and the macro replaced, are plain. *)
Lemma plain_around (a b : str) (y : char) :
  Forall (fun c => plain_char c = true) a ->
  Forall (fun c => plain_char c = true) b ->
  plain_char y = true ->
  Forall (fun c => plain_char c = true) (a ++ [y] ++ b).
Proof.
  intros Ha Hb Hy. apply Forall_app. split; [exact Ha|].
  now constructor.
Qed.

Lemma no_newline_around (a r : str) :
  Forall (fun c => plain_char c = true) a ->
  Forall (fun c => c <> NEWLINE) r ->
  Forall (fun c => c <> NEWLINE) (a ++ BACKSLASH :: r).
Proof.
  intros Ha Hr. apply Forall_app. split.
  - eapply Forall_impl; [exact Ha|]. intros c Hc ->. discriminate.
  - constructor; [discriminate|exact Hr].
Qed.

Lemma plain_no_newline (t : str) :
  Forall (fun c => plain_char c = true) t -> Forall (fun c => c <> NEWLINE) t.
Proof.
  intros H. eapply Forall_impl; [exact H|].
  intros c Hc ->. discriminate.
Qed.

(** X6: an accent macro on a letter inside a word is replaced where it
    stands and the rest of the word is kept: the acute macro, with or
    without a backslash before the letter, gives the character of the
    table, the grave macro the bare letter and the umlaut macro o and O
    with the umlaut and any other letter bare. *)
Theorem unescape_macro_in_word (a b : str) (x : char) :
  Forall (fun c => plain_char c = true) a ->
  Forall (fun c => plain_char c = true) b ->
  is_letter x = true ->
  _unescape_latex (a ++ [BACKSLASH; APOSTROPHE; x] ++ b) = a ++ [acute_spec x] ++ b
  /\ _unescape_latex (a ++ [BACKSLASH; APOSTROPHE; BACKSLASH; x] ++ b)
     = a ++ [acute_spec x] ++ b
  /\ _unescape_latex (a ++ [BACKSLASH; BACKTICK; x] ++ b) = a ++ [x] ++ b
  /\ _unescape_latex (a ++ [BACKSLASH; DQUOTE; x] ++ b) = a ++ [umlaut_spec x] ++ b.
Proof.
  intros Ha Hb Hx.
  destruct (letter_facts x Hx) as (Px & Pa & Pu & <- & Ex).
  pose proof (plain_no_backslash a Ha) as Ba.
  pose proof (plain_no_backslash b Hb) as Bb.
  pose proof (plain_no_newline b Hb) as Nb.
  assert (Nx : x <> NEWLINE) by (intros ->; discriminate).
  assert (Bx : x <> BACKSLASH) by now apply N.eqb_neq.
  repeat split.
  - cbn [app]. rewrite unescape_unfold by now destruct a.
    rewrite replace_char_absent
      by (apply no_newline_around; trivial; repeat constructor; trivial; discriminate).
    rewrite (re_sub_at_match m_acute m_acute_head a _ [accents x] 2 Ba
               (m_acute_here x b Hx) Bb).
    rewrite accent_steps_tail by now apply plain_no_backslash, plain_around.
    now apply plain_text_kept, plain_around.
  - cbn [app]. rewrite unescape_unfold by now destruct a.
    rewrite replace_char_absent
      by (apply no_newline_around; trivial; repeat constructor; trivial; discriminate).
    rewrite (re_sub_at_match m_acute m_acute_head a _ [accents x] 3 Ba
               (m_acute_here_backslash x b Hx) Bb).
    rewrite accent_steps_tail by now apply plain_no_backslash, plain_around.
    now apply plain_text_kept, plain_around.
  - cbn [app]. rewrite unescape_unfold by now destruct a.
    rewrite replace_char_absent
      by (apply no_newline_around; trivial; repeat constructor; trivial; discriminate).
    rewrite (re_sub_at_no_match m_acute m_acute_head a _ Ba)
      by (try (apply m_acute_other; discriminate);
          repeat constructor; trivial; discriminate).
    rewrite (re_sub_at_match m_grave (m_macro_head _ _ _) a _ [x] 2 Ba
               (m_macro_here _ _ _ x b Hx) Bb).
    rewrite (re_sub_no_backslash m_tilde (m_macro_head _ _ _))
      by now apply plain_no_backslash, plain_around.
    rewrite (re_sub_no_backslash m_umlaut (m_macro_head _ _ _))
      by now apply plain_no_backslash, plain_around.
    now apply plain_text_kept, plain_around.
  - cbn [app]. rewrite unescape_unfold by now destruct a.
    rewrite replace_char_absent
      by (apply no_newline_around; trivial; repeat constructor; trivial; discriminate).
    rewrite (re_sub_at_no_match m_acute m_acute_head a _ Ba)
      by (try (apply m_acute_other; discriminate);
          repeat constructor; trivial; discriminate).
    rewrite (re_sub_at_no_match m_grave (m_macro_head _ _ _) a _ Ba)
      by (try (apply m_macro_other; discriminate);
          repeat constructor; trivial; discriminate).
    rewrite (re_sub_at_no_match m_tilde (m_macro_head _ _ _) a _ Ba)
      by (try (apply m_macro_other; discriminate);
          repeat constructor; trivial; discriminate).
    rewrite (re_sub_at_match m_umlaut (m_macro_head _ _ _) a _ [umlaut_spec x] 2 Ba
               (m_macro_here _ _ _ x b Hx) Bb).
    now apply plain_text_kept, plain_around.
Qed.

Lemma unescape_macro_in_word_witness :
  _unescape_latex (py "P\'erez") = py "P" ++ [233%N] ++ py "rez"
  /\ _unescape_latex (py "P\'\erez") = py "P" ++ [233%N] ++ py "rez"
  /\ _unescape_latex (py "P\`erez") = py "Perez"
  /\ _unescape_latex (py "P" ++ [BACKSLASH; DQUOTE] ++ py "erez") = py "Perez".
Proof.
  apply (unescape_macro_in_word (py "P") (py "rez") 101%N).
  - repeat constructor.
  - repeat constructor.
  - reflexivity.
Defined.

(** * Further properties of the author formatter *)

(** ** When the formatter raises *)

Lemma split_ws_cons (c : char) (s : str) :
  split_ws (c :: s) = if is_space c then split_ws s
                      else (c :: fst (split_scan s)) :: snd (split_scan s).
Proof.
  unfold split_ws. simpl. destruct (split_scan s) as [t ts].
  now destruct (is_space c).
Qed.

(** No token: the text is whitespace only. *)
Lemma split_ws_nil_iff (s : str) :
  split_ws s = [] <-> Forall (fun c => is_space c = true) s.
Proof.
  induction s as [|c s IH]; [split; [constructor|reflexivity]|].
  rewrite split_ws_cons, Forall_cons.
  destruct (is_space c); [rewrite IH; tauto|].
  split; [discriminate|]. now intros [? _].
Qed.

Lemma contains_has_token (c : char) (s : str) :
  contains c s = true -> is_space c = false -> split_ws s <> [].
Proof.
  intros Hc Hs Hn. apply split_ws_nil_iff in Hn.
  unfold contains in Hc. apply existsb_exists in Hc as (d & Hd & E).
  apply N.eqb_eq in E as ->.
  rewrite Forall_forall in Hn. apply list_elem_of_In in Hd.
  specialize (Hn _ Hd). congruence.
Qed.

Lemma py_last_nonempty {A} (x : A) (l : list A) : exists y, py_last (x :: l) = Ok y.
Proof.
  unfold py_last.
  destruct (last (x :: l)) as [y|] eqn:E; [now exists y|].
  now apply last_None in E.
Qed.

(** The name of a segment is found exactly when the segment has a token. *)
Lemma split_name_outcome (q : str) :
  (split_ws q = [] /\ split_name q = Raise IndexError)
  \/ (split_ws q <> [] /\ exists lf, split_name q = Ok lf).
Proof.
  unfold split_name.
  destruct (contains COMMA q) eqn:Hc.
  - right. split; [now apply (contains_has_token COMMA)|].
    destruct (split_once COMMA q) as [a b]. eauto.
  - destruct (split_ws q) as [|t [|t2 ts]] eqn:Ht.
    + left. now split.
    + right. split; [discriminate|eauto].
    + right. split; [discriminate|].
      destruct (py_last_nonempty t (t2 :: ts)) as [y ->]. simpl. eauto.
Qed.

Lemma format_name_outcome (p : str) :
  (split_ws (_unescape_latex (strip p)) = [] /\ format_name p = Raise IndexError)
  \/ (split_ws (_unescape_latex (strip p)) <> [] /\ exists r, format_name p = Ok r).
Proof.
  unfold format_name.
  destruct (split_name_outcome (_unescape_latex (strip p)))
    as [[H ->]|[H [lf ->]]]; [left; now split|right].
  split; [exact H|]. simpl. destruct (initials_of (snd lf)); eauto.
Qed.

Section MapM.

Context {A B : Type}.
Variable f : A -> result B.

Lemma mapM_length (l : list A) (bs : list B) :
  mapM f l = Ok bs -> length bs = length l.
Proof.
  revert bs. induction l as [|a l IH]; intros bs; simpl.
  - now intros [= <-].
  - destruct (f a) as [b|e]; [|discriminate]. simpl.
    destruct (mapM f l) as [bs'|e]; [|discriminate]. simpl.
    intros [= <-]. simpl. now rewrite (IH bs').
Qed.

Lemma mapM_raise (l : list A) (e : exn) :
  mapM f l = Raise e -> Exists (fun a => f a = Raise e) l.
Proof.
  induction l as [|a l IH]; simpl; [discriminate|].
  destruct (f a) as [b|e'] eqn:E; simpl.
  - destruct (mapM f l) as [bs'|e'']; [discriminate|]. simpl.
    intros [= <-]. right. now apply IH.
  - intros [= <-]. now left.
Qed.

Lemma mapM_ok (l : list A) (bs : list B) :
  mapM f l = Ok bs -> Forall (fun a => exists b, f a = Ok b) l.
Proof.
  revert bs. induction l as [|a l IH]; intros bs; simpl; [constructor|].
  destruct (f a) as [b|e] eqn:E; [|discriminate]. simpl.
  destruct (mapM f l) as [bs'|e]; [|discriminate]. simpl.
  intros _. constructor; [eauto|]. now apply (IH bs').
Qed.

End MapM.

Lemma re_split_nonempty (m : str -> option nat) (s : str) : re_split m s <> [].
Proof.
  destruct s as [|c s]; [discriminate|].
  rewrite re_split_cons.
  destruct (m (c :: s)) as [[|k]|]; try discriminate;
    now destruct (re_split m s).
Qed.

Lemma join_names_nonempty (n : str) (names : list str) :
  exists r, join_names (n :: names) = Ok r.
Proof.
  destruct names as [|n2 [|n3 names]]; simpl; eauto.
  destruct (py_last_nonempty n (n2 :: n3 :: names)) as [y Hy].
  unfold join_names. rewrite Hy. simpl. eauto.
Qed.

(** X7: the formatter raises exactly when the field is not empty and one
    of its segments, unescaped, has no token, that is, holds nothing but
    whitespace and braces; the exception is then an IndexError, and in
    every other case a string is returned. *)
Theorem format_authors_raises_iff (s : str) :
  (_format_authors_apa s = Raise IndexError <->
     s <> [] /\
     Exists (fun p => split_ws (_unescape_latex (strip p)) = []) (re_split m_and s))
  /\ (forall e, _format_authors_apa s = Raise e -> e = IndexError)
  /\ (_format_authors_apa s = Raise IndexError \/ exists r, _format_authors_apa s = Ok r).
Proof.
  destruct s as [|c s].
  { split; [|split].
    - split; [discriminate|]. now intros [? _].
    - discriminate.
    - right. now exists []. }
  set (s0 := c :: s).
  assert (Hu : _format_authors_apa s0 =
               do names <- mapM format_name (re_split m_and s0); join_names names)
    by reflexivity.
  destruct (mapM format_name (re_split m_and s0)) as [names|e] eqn:Hm.
  - assert (Hok : exists r, _format_authors_apa s0 = Ok r).
    { rewrite Hu. simpl.
      destruct names as [|n names]; [|apply join_names_nonempty].
      apply mapM_length in Hm. simpl in Hm.
      destruct (re_split m_and s0) eqn:E; [|discriminate].
      now apply re_split_nonempty in E. }
    destruct Hok as [r Hr].
    split; [|split].
    + split; [rewrite Hr; discriminate|].
      intros [_ Hex]. apply mapM_ok in Hm.
      rewrite Exists_exists in Hex. destruct Hex as (p & Hp & Hnil).
      rewrite Forall_forall in Hm. destruct (Hm p Hp) as [b Hb].
      destruct (format_name_outcome p) as [[_ H]|[H _]]; congruence.
    + rewrite Hr. discriminate.
    + right. eauto.
  - assert (He : e = IndexError).
    { apply mapM_raise in Hm. rewrite Exists_exists in Hm.
      destruct Hm as (p & _ & Hp).
      destruct (format_name_outcome p) as [[_ H]|[_ [r H]]]; congruence. }
    subst e.
    assert (Hr : _format_authors_apa s0 = Raise IndexError) by now rewrite Hu.
    split; [|split].
    + split; [|intros _; exact Hr].
      intros _. split; [discriminate|].
      apply mapM_raise in Hm. eapply Exists_impl; [exact Hm|].
      intros p Hp. simpl in Hp.
      destruct (format_name_outcome p) as [[H _]|[_ [r H]]]; [exact H|congruence].
    + rewrite Hr. now intros e [= <-].
    + now left.
Qed.

(** ** The segments of the field *)

Lemma split_at_and_pieces (s : str) (pieces : list str) :
  split_at_and s pieces ->
  Forall (fun p => forall i, ~ separator_at p i) pieces.
Proof.
  induction 1 as [s Hno|p sep rest pieces Hsep Hrest Hfirst Hsplit IH].
  - now repeat constructor.
  - constructor; [|exact IH].
    intros i (x & sep' & y & Hsep' & Hp & Hl).
    apply (Hfirst i).
    + destruct Hsep' as (w1 & w2 & Hw1 & _ & _ & _ & ->).
      rewrite Hp, !length_app, Hl.
      destruct w1; [congruence|]. simpl. lia.
    + exists x, sep', (y ++ sep ++ rest).
      split; [exact Hsep'|]. split; [|exact Hl].
      rewrite Hp. now rewrite <- !app_assoc.
Qed.

(** X8: no segment of the author field contains a separator. *)
Theorem segments_hold_no_separator (s : str) :
  Forall (fun p => forall i, ~ separator_at p i) (re_split m_and s).
Proof. apply (split_at_and_pieces s), re_split_and_splits. Qed.

(** ** Names written in either order *)

Lemma plain_word_no_space (w : str) :
  plain_word w -> Forall (fun c => is_space c = false) w.
Proof.
  intros [_ H]. eapply Forall_impl; [exact H|].
  intros c Hc. apply (plain_char_spec c Hc).
Qed.

Lemma name_word_plain (w : str) : name_word w -> plain_word w.
Proof.
  intros [Hn H]. split; [exact Hn|].
  eapply Forall_impl; [exact H|]. now intros c [Hc _].
Qed.

Lemma split_scan_word (w s : str) :
  Forall (fun c => is_space c = false) w ->
  split_scan (w ++ s) = (w ++ fst (split_scan s), snd (split_scan s)).
Proof.
  induction 1 as [|c w Hc Hw IH]; simpl; [now destruct (split_scan s)|].
  rewrite IH, Hc. reflexivity.
Qed.

Lemma split_ws_word_space (w s : str) :
  plain_word w -> split_ws (w ++ SPACE :: s) = w :: split_ws s.
Proof.
  intros Hw. unfold split_ws.
  rewrite (split_scan_word w _ (plain_word_no_space w Hw)).
  simpl. destruct (split_scan s) as [t ts]. simpl.
  rewrite app_nil_r. destruct Hw as [Hn _]. now destruct w.
Qed.

Lemma split_ws_word (w : str) : plain_word w -> split_ws w = [w].
Proof.
  intros Hw. unfold split_ws.
  rewrite <- (app_nil_r w) at 1.
  rewrite (split_scan_word w _ (plain_word_no_space w Hw)).
  simpl. rewrite app_nil_r. destruct Hw as [Hn _]. now destruct w.
Qed.

Lemma join_cons2 (sep w w2 : str) (ws : list str) :
  join sep (w :: w2 :: ws) = w ++ sep ++ join sep (w2 :: ws).
Proof. reflexivity. Qed.

(** Splitting words joined by single spaces gives the words back. *)
Lemma split_ws_join (ws : list str) :
  Forall plain_word ws -> split_ws (join [SPACE] ws) = ws.
Proof.
  induction 1 as [|w ws Hw Hws IH]; [reflexivity|].
  destruct ws as [|w2 ws]; [now apply split_ws_word|].
  rewrite join_cons2. change ([SPACE] ++ ?x) with (SPACE :: x).
  rewrite split_ws_word_space by exact Hw. now rewrite IH.
Qed.

Lemma span_space_word_app (w s : str) : plain_word w -> span_space (w ++ s) = 0.
Proof.
  intros Hw. pose proof (plain_word_no_space w Hw) as H.
  destruct Hw as [Hn _]. destruct H as [|c w Hc _]; [congruence|].
  simpl. now rewrite Hc.
Qed.

Lemma span_space_join (w : str) (ws : list str) :
  plain_word w -> span_space (join [SPACE] (w :: ws)) = 0.
Proof.
  intros Hw. destruct ws; [|rewrite join_cons2; now apply span_space_word_app].
  simpl. rewrite <- (app_nil_r w). now apply span_space_word_app.
Qed.

Lemma single_spaced_word_app (w s : str) :
  Forall (fun c => is_space c = false) w -> single_spaced s -> single_spaced (w ++ s).
Proof.
  induction 1 as [|c w Hc Hw IH]; [trivial|].
  intros Hs. simpl. split; [congruence|now apply IH].
Qed.

Lemma single_spaced_join (ws : list str) :
  Forall plain_word ws -> single_spaced (join [SPACE] ws).
Proof.
  induction 1 as [|w ws Hw Hws IH]; [exact I|].
  destruct ws as [|w2 ws].
  - simpl. now apply single_spaced_no_space, plain_word_no_space.
  - rewrite join_cons2.
    apply single_spaced_word_app; [now apply plain_word_no_space|].
    simpl. split; [|exact IH].
    intros _. split; [reflexivity|].
    apply Forall_cons in Hws as [Hw2 _]. now apply span_space_join.
Qed.

Lemma rstrip_app_word (s w : str) :
  plain_word w -> rstrip (s ++ w) = s ++ w.
Proof.
  intros Hw. induction s as [|d s IH].
  - now apply rstrip_no_space, plain_word_no_space.
  - simpl. rewrite IH. destruct Hw as [Hn _].
    destruct (s ++ w) eqn:E; [|reflexivity].
    apply app_eq_nil in E as [_ E]. congruence.
Qed.

Lemma rstrip_join (w : str) (ws : list str) :
  Forall plain_word (w :: ws) ->
  rstrip (join [SPACE] (w :: ws)) = join [SPACE] (w :: ws).
Proof.
  revert w. induction ws as [|w2 ws IH]; intros w H.
  - apply Forall_cons in H as [Hw _]. simpl.
    now apply rstrip_no_space, plain_word_no_space.
  - apply Forall_cons in H as [Hw Hws].
    rewrite join_cons2.
    assert (E : exists pre lw, plain_word lw /\ join [SPACE] (w2 :: ws) = pre ++ lw).
    { clear IH Hw w. revert w2 Hws. induction ws as [|w3 ws IH]; intros w2 H.
      - apply Forall_cons in H as [H _]. now exists [], w2.
      - apply Forall_cons in H as [H2 H].
        destruct (IH w3 H) as (pre & lw & Hlw & E).
        exists (w2 ++ [SPACE] ++ pre), lw. split; [exact Hlw|].
        rewrite join_cons2, E. now rewrite <- !app_assoc. }
    destruct E as (pre & lw & Hlw & ->).
    rewrite !app_assoc. now apply rstrip_app_word.
Qed.

Lemma strip_join (ws : list str) :
  Forall plain_word ws -> strip (join [SPACE] ws) = join [SPACE] ws.
Proof.
  intros H. destruct ws as [|w ws]; [reflexivity|].
  unfold strip. rewrite lstrip_fixed.
  - now apply rstrip_join.
  - apply Forall_cons in H as [Hw _]. now apply span_space_join.
Qed.

Lemma Forall_join (P : char -> Prop) (ws : list str) :
  P SPACE -> Forall (Forall P) ws -> Forall P (join [SPACE] ws).
Proof.
  intros Hs. induction 1 as [|w ws Hw Hws IH]; [constructor|].
  destruct ws as [|w2 ws]; [exact Hw|].
  rewrite join_cons2. apply Forall_app. split; [exact Hw|].
  now constructor.
Qed.

Lemma plain_words_chars (ws : list str) :
  Forall plain_word ws ->
  Forall (Forall (fun c => c <> BACKSLASH /\ c <> LBRACE /\ c <> RBRACE)) ws.
Proof.
  intros Hws. eapply Forall_impl; [exact Hws|].
  intros w [_ H]. eapply Forall_impl; [exact H|].
  intros c Hc. apply (plain_char_spec c Hc).
Qed.

(** Plain words joined by single spaces are a fixed point of the
    unescaper. *)
Lemma unescape_join (ws : list str) :
  Forall plain_word ws -> _unescape_latex (join [SPACE] ws) = join [SPACE] ws.
Proof.
  intros H.
  assert (Hc : Forall (fun c => c <> BACKSLASH /\ c <> LBRACE /\ c <> RBRACE)
                 (join [SPACE] ws)).
  { apply Forall_join; [repeat split; discriminate|now apply plain_words_chars]. }
  assert (Hb : Forall (fun c => c <> BACKSLASH) (join [SPACE] ws)).
  { eapply Forall_impl; [exact Hc|]. intros c0 Hc0; simpl in Hc0; tauto. }
  apply unescape_fixed.
  - now apply single_spaced_join.
  - now apply strip_join.
  - unfold has_macro.
    rewrite (has_match_no_backslash m_acute m_acute_head _ Hb).
    rewrite (has_match_no_backslash m_grave (m_macro_head _ _ _) _ Hb).
    rewrite (has_match_no_backslash m_tilde (m_macro_head _ _ _) _ Hb).
    now rewrite (has_match_no_backslash m_umlaut (m_macro_head _ _ _) _ Hb).
  - unfold has_brace. apply orb_false_iff.
    split; apply contains_false_iff; (eapply Forall_impl; [exact Hc|]);
      intros c0 Hc0; simpl in Hc0; tauto.
Qed.

Lemma initials_of_words (f : str) (fs : list str) :
  Forall plain_word (f :: fs) ->
  exists c r, initials_spec (join [SPACE] (f :: fs)) = c :: r
              /\ initials_spec (join [SPACE] (f :: fs))
                 = join [SPACE] (map initial (f :: fs)).
Proof.
  intros H. unfold initials_spec. rewrite (split_ws_join _ H).
  apply Forall_cons in H as [[Hn _] _].
  destruct f as [|c f]; [congruence|].
  destruct fs; simpl; eauto.
Qed.

(** X9: a name given as first names and last name, and the same name
    given as last name, comma, first names, format alike: the last name,
    a comma and the initials of the first names. *)
Theorem name_orders_agree (f : str) (fs : list str) (l : str) :
  Forall name_word (f :: fs) ->
  name_word l ->
  format_name (join [SPACE] ((f :: fs) ++ [l]))
  = Ok (l ++ py ", " ++ join [SPACE] (map initial (f :: fs)))
  /\ format_name (l ++ py ", " ++ join [SPACE] (f :: fs))
     = Ok (l ++ py ", " ++ join [SPACE] (map initial (f :: fs))).
Proof.
  intros Hfs Hl.
  assert (Pfs : Forall plain_word (f :: fs)).
  { eapply Forall_impl; [exact Hfs|]. apply name_word_plain. }
  pose proof (name_word_plain l Hl) as Pl.
  destruct (initials_of_words f fs Pfs) as (c & r & Hi & <-).
  assert (Hrender : render_name l (join [SPACE] (f :: fs))
                    = l ++ py ", " ++ initials_spec (join [SPACE] (f :: fs))).
  { unfold render_name. now rewrite Hi. }
  rewrite <- Hrender.
  split; apply format_name_render.
  - assert (Pall : Forall plain_word ((f :: fs) ++ [l])).
    { apply Forall_app. split; [exact Pfs|now constructor]. }
    rewrite strip_join, unescape_join by exact Pall.
    unfold split_name.
    assert (Hc : contains COMMA (join [SPACE] ((f :: fs) ++ [l])) = false).
    { apply contains_false_iff, Forall_join; [discriminate|].
      apply Forall_app. split.
      - eapply Forall_impl; [exact Hfs|]. intros w [_ H].
        eapply Forall_impl; [exact H|]. intros c0 Hc0; simpl in Hc0; tauto.
      - constructor; [|constructor]. destruct Hl as [_ H].
        eapply Forall_impl; [exact H|]. intros c0 Hc0; simpl in Hc0; tauto. }
    rewrite Hc, (split_ws_join _ Pall).
    rewrite py_last_snoc, py_init_snoc.
    change ((f :: fs) ++ [l]) with (f :: (fs ++ [l])).
    now destruct fs.
  - set (w0 := l ++ [COMMA]).
    assert (Pw0 : plain_word w0).
    { split; [unfold w0; now destruct l|].
      apply Forall_app. split; [apply Pl|now repeat constructor]. }
    assert (E : l ++ py ", " ++ join [SPACE] (f :: fs) = join [SPACE] (w0 :: f :: fs)).
    { rewrite join_cons2. unfold w0. now rewrite <- !app_assoc. }
    rewrite E.
    rewrite strip_join, unescape_join by now constructor.
    rewrite <- E.
    unfold split_name.
    assert (Hcl : contains COMMA l = false).
    { apply contains_false_iff. destruct Hl as [_ H].
      eapply Forall_impl; [exact H|]. intros c0 Hc0; simpl in Hc0; tauto. }
    change (l ++ py ", " ++ join [SPACE] (f :: fs))
      with (l ++ COMMA :: SPACE :: join [SPACE] (f :: fs)).
    assert (Hc : contains COMMA (l ++ COMMA :: SPACE :: join [SPACE] (f :: fs)) = true).
    { rewrite contains_app, contains_head. apply orb_true_r. }
    rewrite Hc, (split_once_first COMMA l _ Hcl).
    f_equal. f_equal.
    + apply (strip_join [l]). now constructor.
    + unfold strip. simpl lstrip.
      rewrite lstrip_fixed by (apply span_space_join; now apply Forall_cons in Pfs as [? _]).
      now apply rstrip_join.
Qed.

Lemma name_orders_agree_witness :
  format_name (py "Ada King Lovelace") = Ok (py "Lovelace, A. K.")
  /\ format_name (py "Lovelace, Ada King") = Ok (py "Lovelace, A. K.").
Proof.
  apply (name_orders_agree (py "Ada") [py "King"] (py "Lovelace")).
  - repeat constructor; discriminate.
  - repeat constructor; discriminate.
Defined.

(** * Further properties of the reference line *)

(** ** What collapsing and trimming keep *)

Lemma ink_cons (c : char) (s : str) :
  ink (c :: s) = if is_space c then ink s else c :: ink s.
Proof. unfold ink. simpl. now destruct (is_space c). Qed.

Lemma ink_app (a b : str) : ink (a ++ b) = ink a ++ ink b.
Proof. apply List.filter_app. Qed.

Lemma ink_drop_span (s : str) : ink (drop (span_space s) s) = ink s.
Proof.
  induction s as [|c s IH]; [reflexivity|].
  cbn [span_space]. destruct (is_space c) eqn:E; cbn [drop]; [|reflexivity].
  now rewrite ink_cons, E.
Qed.

Lemma ink_collapse_spaces (s : str) : ink (collapse_spaces s) = ink s.
Proof.
  remember (length s) as n eqn:Hn.
  revert s Hn. induction n as [n IH] using lt_wf_ind. intros s ->.
  destruct s as [|c s]; [reflexivity|].
  rewrite collapse_spaces_cons, (ink_cons c s).
  destruct (is_space c) eqn:E.
  - rewrite ink_cons. change (is_space SPACE) with true. cbv iota.
    rewrite <- (ink_drop_span s).
    eapply IH; [|reflexivity]. rewrite length_drop. simpl. lia.
  - rewrite ink_cons, E. f_equal. eapply IH; [|reflexivity]. simpl. lia.
Qed.

Lemma ink_lstrip (s : str) : ink (lstrip s) = ink s.
Proof.
  induction s as [|c s IH]; [reflexivity|].
  simpl lstrip. rewrite (ink_cons c s).
  destruct (is_space c) eqn:E; [exact IH|]. now rewrite ink_cons, E.
Qed.

Lemma ink_rstrip (s : str) : ink (rstrip s) = ink s.
Proof.
  induction s as [|c s IH]; [reflexivity|].
  rewrite rstrip_cons, (ink_cons c s), <- IH.
  destruct (rstrip s) as [|d r].
  - destruct (is_space c) eqn:E; [reflexivity|]. now rewrite ink_cons, E.
  - now rewrite ink_cons.
Qed.

Lemma ink_strip (s : str) : ink (strip s) = ink s.
Proof. unfold strip. now rewrite ink_rstrip, ink_lstrip. Qed.

(** The last character of a text without trailing whitespace is its
    last visible character. *)
Lemma last_rstrip (s : str) : last (rstrip s) = last (ink s).
Proof.
  induction s as [|c s IH]; [reflexivity|].
  rewrite rstrip_cons, (ink_cons c s).
  destruct (rstrip s) as [|d r] eqn:Er.
  - assert (Hi : ink s = []) by (rewrite <- ink_rstrip, Er; reflexivity).
    rewrite Hi. now destruct (is_space c).
  - assert (Hi : ink s <> []).
    { intros H. rewrite H in IH. now apply last_None in IH. }
    change (last (c :: d :: r)) with (last (d :: r)). rewrite IH.
    destruct (is_space c); [reflexivity|].
    destruct (ink s); [congruence|reflexivity].
Qed.

Lemma last_strip (s : str) : last (strip s) = last (ink s).
Proof. unfold strip. now rewrite last_rstrip, ink_lstrip. Qed.

Lemma assemble_ink (authors year title jpart : str) :
  ink (assemble authors year title jpart) =
    ink (if nonempty authors then authors ++ py " " else [])
    ++ ink (if nonempty year then py "(" ++ year ++ py "). " else [])
    ++ ink (if nonempty title then title ++ py ". " else [])
    ++ ink (if nonempty jpart then jpart ++ py "." else []).
Proof.
  unfold assemble. rewrite ink_strip, ink_collapse_spaces, !add_part_app.
  rewrite !ink_app. now rewrite <- !app_assoc.
Qed.

Lemma journal_part_nil (journal volume number : str) :
  journal_part journal volume number = [] ->
  journal = [] /\ volume = [] /\ number = [].
Proof.
  destruct journal, volume, number; try discriminate; now repeat split.
Qed.

Lemma assemble_shape (authors year title jpart : str) :
  exists u, assemble authors year title jpart = strip (collapse_spaces u).
Proof. eexists. reflexivity. Qed.

Lemma apa_line_assembled (fields : gmap str str) (line : str) :
  apa_line fields = Ok line ->
  exists authors,
    line = assemble authors (clean fields "year") (clean fields "title")
             (journal_part (clean fields "journal") (clean fields "volume")
                (clean fields "number")).
Proof.
  unfold apa_line.
  destruct (_format_authors_apa (get fields "author")) as [a|e]; [|discriminate].
  simpl. intros [= <-]. now exists a.
Qed.

(** X10: the line computed for a field mapping is normalised for
    whitespace: its only whitespace characters are spaces, no two of
    them are adjacent, and it neither starts nor ends with one. *)
Theorem apa_line_whitespace_normal (fields : gmap str str) (line : str) :
  apa_line fields = Ok line ->
  Forall (fun c => is_space c = true -> c = SPACE) line
  /\ single_spaced line
  /\ span_space line = 0
  /\ rstrip line = line.
Proof.
  intros (a & ->)%apa_line_assembled.
  destruct (assemble_shape a (clean fields "year") (clean fields "title")
              (journal_part (clean fields "journal") (clean fields "volume")
                 (clean fields "number"))) as [u ->].
  assert (Hss : single_spaced (strip (collapse_spaces u)))
    by apply single_spaced_strip, collapse_spaces_single_spaced.
  split; [now apply single_spaced_no_newline|].
  split; [exact Hss|].
  apply strip_fixed_ends, strip_idempotent.
Qed.

Lemma apa_line_whitespace_normal_witness :
  single_spaced (py "(2020). A Study.").
Proof.
  refine (proj1 (proj2 (apa_line_whitespace_normal
            (<[py "year" := py " 2020 "]> (<[py "title" := py "A   Study"]> ∅))
            (py "(2020). A Study.") _))).
  vm_compute. reflexivity.
Defined.

Lemma last_ink_dot (pre x tail : str) :
  ink tail = [] -> last (ink (pre ++ x ++ DOT :: tail)) = Some DOT.
Proof.
  intros Ht. rewrite !ink_app, ink_cons, Ht. change (is_space DOT) with false.
  cbv iota. rewrite !app_assoc. apply last_snoc.
Qed.

(** X11: when the year, the title, the journal, the volume or the number
    is not empty once cleaned, the line ends with a period. *)
Theorem apa_line_ends_with_period (fields : gmap str str) (line : str) :
  apa_line fields = Ok line ->
  Exists (fun k => clean fields k <> []) plain_fields ->
  last line = Some DOT.
Proof.
  intros (a & ->)%apa_line_assembled Hex.
  assert (Hyt : clean fields "year" <> [] \/ clean fields "title" <> []
                \/ journal_part (clean fields "journal") (clean fields "volume")
                     (clean fields "number") <> []).
  { unfold plain_fields in Hex. rewrite !Exists_cons, Exists_nil in Hex.
    destruct Hex as [H|[H|[H|[H|[H|[]]]]]];
      [now left|now right; left|right; right..];
      intros (Hj & Hv & Hn)%journal_part_nil; congruence. }
  revert Hyt.
  generalize (journal_part (clean fields "journal") (clean fields "volume")
                (clean fields "number")) as j.
  generalize (clean fields "title") as t. generalize (clean fields "year") as y.
  clear Hex. intros y t j Hyt.
  unfold assemble. rewrite last_strip, ink_collapse_spaces, !add_part_app.
  destruct j as [|cj j'].
  - rewrite app_nil_r. destruct t as [|ct t'].
    + rewrite app_nil_r. destruct y as [|cy y']; [intuition congruence|].
      cbn [nonempty].
      replace (py "(" ++ (cy :: y') ++ py "). ")
        with ((py "(" ++ (cy :: y') ++ py ")") ++ DOT :: py " ")
        by (now rewrite <- !app_assoc).
      now apply last_ink_dot.
    + cbn [nonempty].
      change ((ct :: t') ++ py ". ") with ((ct :: t') ++ DOT :: py " ").
      now apply last_ink_dot.
  - cbn [nonempty].
    change ((cj :: j') ++ py ".") with ((cj :: j') ++ DOT :: []).
    now apply last_ink_dot.
Qed.

Lemma apa_line_ends_with_period_witness :
  last (py "(2020).") = Some DOT.
Proof.
  apply (apa_line_ends_with_period (<[py "year" := py "{2020}"]> ∅) (py "(2020).")).
  - vm_compute. reflexivity.
  - left. vm_compute. discriminate.
Defined.

(** * Further properties of the program *)

(** ** The fields of the first entry *)

Section Fields.

Variable loads : str -> result (list (list (str * str))).
Variable lower : str -> str.

Lemma lower_keys_snoc (entry : list (str * str)) (k v : str) :
  lower_keys lower (entry ++ [(k, v)]) = <[lower k := v]> (lower_keys lower entry).
Proof. unfold lower_keys. now rewrite fold_left_app. Qed.

Lemma lower_keys_lookup (entry : list (str * str)) (key : str) :
  lower_keys lower entry !! key = field_value lower key entry.
Proof.
  induction entry as [|[k v] entry IH] using rev_ind; [reflexivity|].
  rewrite lower_keys_snoc. unfold field_value in *.
  rewrite List.filter_app, map_app. cbn [List.filter fst snd].
  destruct (decide (lower k = key)) as [E|E].
  - rewrite bool_decide_eq_true_2 by exact E. cbn [map].
    rewrite E, lookup_insert_eq. now rewrite last_snoc.
  - rewrite bool_decide_eq_false_2 by exact E. cbn [map].
    rewrite app_nil_r, lookup_insert_ne by exact E. exact IH.
Qed.

(** X12: when the parser returns entries, the field mapping is read
    from the first one alone: under a key it holds the value of the last
    item of that entry whose name, in lower case, is the key, and
    nothing when there is none; nothing is written to either stream. *)
Theorem parse_reads_first_entry
    (paper : str) (entry : list (str * str)) (rest : list (list (str * str)))
    (w : world) (key : str) :
  paper <> [] ->
  loads paper = Ok (entry :: rest) ->
  fst (_parse_bib_fields loads lower paper w) !! key = field_value lower key entry
  /\ snd (_parse_bib_fields loads lower paper w) = w.
Proof using Type.
  intros Hne Hl. unfold _parse_bib_fields. rewrite Hl.
  destruct paper; [congruence|]. simpl. split; [apply lower_keys_lookup|reflexivity].
Qed.

End Fields.

Lemma parse_reads_first_entry_witness :
  let entry := [(py "Title", py "Old"); (py "YEAR", py "2020"); (py "title", py "New")] in
  let lower := fun k : str =>
    map (fun c => if in_range 65 90 c then (c + 32)%N else c) k in
  fst (_parse_bib_fields (fun _ => Ok [entry; []]) lower (py "@article{k}") (World [] []))
    !! py "title" = Some (py "New").
Proof.
  intros entry lower.
  refine (proj1 (parse_reads_first_entry (fun _ => Ok [entry; []]) lower
                   (py "@article{k}") entry [[]] (World [] []) (py "title") _ _)).
  - discriminate.
  - reflexivity.
Defined.

(** ** The streams and the exit status *)

Section Streams.

Variable loads : str -> result (list (list (str * str))).
Variable lower : str -> str.
Variable help_text : list str.
Variable traceback : exn -> list str.

Lemma parse_effect (paper : str) (w : world) :
  stdout (snd (_parse_bib_fields loads lower paper w)) = stdout w
  /\ exists err, stderr (snd (_parse_bib_fields loads lower paper w)) = stderr w ++ err.
Proof using Type.
  unfold _parse_bib_fields.
  destruct paper; [split; [reflexivity|exists []; now rewrite app_nil_r]|].
  destruct (loads _) as [[|entry rest]|e]; simpl;
    (split; [reflexivity|]); eauto; exists []; now rewrite app_nil_r.
Qed.

Lemma paper_from_bib_effect (paper : str) (w : world) :
  (exists err, stderr (fst (PaperFromBib loads lower paper w)) = stderr w ++ err)
  /\ match snd (PaperFromBib loads lower paper w) with
     | Ok _ => exists line, stdout (fst (PaperFromBib loads lower paper w))
                            = stdout w ++ [line]
     | Raise _ => stdout (fst (PaperFromBib loads lower paper w)) = stdout w
     end.
Proof using Type.
  unfold PaperFromBib.
  destruct (parse_effect paper w) as [Ho [err He]].
  destruct (_parse_bib_fields loads lower paper w) as [fields w1]. simpl in *.
  unfold print_reference.
  destruct (apa_line fields) as [line|e]; simpl.
  - split; [eauto|]. exists line. now rewrite Ho.
  - split; [eauto|exact Ho].
Qed.

(** X13: once the command line has been parsed, the exit status is 0
    or 1 and both streams only grow.  With status 1 nothing is written
    to standard output; with status 0 standard output receives exactly
    one line, or the help text. *)
Theorem main_streams (i : invocation) (w : world) :
  let r := main loads lower help_text traceback i w in
  (snd r = 0 \/ snd r = 1)
  /\ (exists err, stderr (fst r) = stderr w ++ err)
  /\ (snd r = 1 -> stdout (fst r) = stdout w)
  /\ (snd r = 0 ->
        (exists line, stdout (fst r) = stdout w ++ [line])
        \/ stdout (fst r) = stdout w ++ help_text).
Proof using Type.
  assert (Hfinish : forall paper,
    let r := finish traceback (PaperFromBib loads lower paper w) in
    (snd r = 0 \/ snd r = 1)
    /\ (exists err, stderr (fst r) = stderr w ++ err)
    /\ (snd r = 1 -> stdout (fst r) = stdout w)
    /\ (snd r = 0 -> (exists line, stdout (fst r) = stdout w ++ [line])
                     \/ stdout (fst r) = stdout w ++ help_text)).
  { intros paper. destruct (paper_from_bib_effect paper w) as [[err He] Ho].
    destruct (PaperFromBib loads lower paper w) as [w1 [u|e]]; simpl in *.
    - split; [now left|]. split; [eauto|]. split; [discriminate|]. intros _. now left.
    - split; [now right|]. split; [|split; [intros _; exact Ho|discriminate]].
      exists (err ++ traceback e). now rewrite He, app_assoc. }
  unfold main.
  destruct (truthy (arg_text i)) as [text|]; [apply Hfinish|].
  destruct (truthy (arg_file i)) as [path|].
  - destruct (read_file i path) as [content|e]; simpl.
    + destruct (paper_from_bib_effect content w) as [[err He] Ho].
      destruct (PaperFromBib loads lower content w) as [w1 [u|e]]; simpl in *.
      * split; [now left|]. split; [eauto|]. split; [discriminate|]. intros _. now left.
      * split; [now right|]. split; [|split; [intros _; exact Ho|discriminate]].
        eexists. rewrite He, <- app_assoc. reflexivity.
    + split; [now right|]. split; [eauto|]. split; [reflexivity|discriminate].
  - destruct (stdin_isatty i); [|apply Hfinish].
    simpl. split; [now left|]. split; [exists []; now rewrite app_nil_r|].
    split; [discriminate|]. intros _. now right.
Qed.


(** X15: when the author field of the first entry makes the formatter
    raise, nothing is printed and the status is 1; the exception reaches
    the interpreter as a traceback when the text came from the option or
    from standard input, and is reported as an error reading the file
    when it came from a file. *)
Theorem main_formatter_failure
    (i : invocation) (paper : str) (entry : list (str * str))
    (rest : list (list (str * str))) (e : exn) (w : world) :
  paper <> [] ->
  loads paper = Ok (entry :: rest) ->
  _format_authors_apa (get (lower_keys lower entry) "author") = Raise e ->
  (truthy (arg_text i) = Some paper \/
   (truthy (arg_text i) = None /\ truthy (arg_file i) = None /\
    stdin_isatty i = false /\ stdin_read i = paper) ->
   main loads lower help_text traceback i w =
     (World (stdout w) (stderr w ++ traceback e), 1))
  /\ (forall path,
        truthy (arg_text i) = None -> truthy (arg_file i) = Some path ->
        read_file i path = Ok paper ->
        main loads lower help_text traceback i w =
          (print_err (py "Error reading ` " ++ path ++ py " `: " ++ exn_str e) w, 1)).
Proof using Type.
  intros Hne Hl Ha.
  assert (Hp : PaperFromBib loads lower paper w = (w, Raise e)).
  { unfold PaperFromBib, _parse_bib_fields. rewrite Hl.
    destruct paper; [congruence|]. unfold print_reference, apa_line. now rewrite Ha. }
  unfold main. split.
  - intros [Ht|(Ht & Hf & Htty & Hin)]; rewrite Ht.
    + now rewrite Hp.
    + now rewrite Hf, Htty, Hin, Hp.
  - intros path Ht Hf Hr. now rewrite Ht, Hf, Hr, Hp.
Qed.

(** X16: an empty entry text, and a text in which the parser finds no
    entry, give one empty line on standard output, nothing on the error
    stream and status 0; for the empty text the parser is not
    consulted. *)
Theorem main_without_entry (i : invocation) (paper : str) (w : world) :
  paper = [] \/ loads paper = Ok [] ->
  delivers i paper ->
  main loads lower help_text traceback i w = (print_out [] w, 0).
Proof using Type.
  intros Hpaper Hd.
  assert (Hp : PaperFromBib loads lower paper w = (print_out [] w, Ok tt)).
  { unfold PaperFromBib, _parse_bib_fields.
    destruct Hpaper as [->|Hl]; [reflexivity|].
    rewrite Hl. now destruct paper. }
  unfold main.
  destruct Hd as [Ht|[(Ht & path & Hf & Hr)|(Ht & Hf & Htty & Hin)]]; rewrite Ht.
  - now rewrite Hp.
  - now rewrite Hf, Hr, Hp.
  - now rewrite Hf, Htty, Hin, Hp.
Qed.

End Streams.


Lemma main_formatter_failure_witness :
  let paper := py "@article{k, author = {Smith and {}}}" in
  let entry := [(py "author", py "Smith and {}")] in
  let i := Invocation (Some paper) None (fun _ => Raise IndexError) true [] in
  main (fun _ => Ok [entry]) (fun k => k) [] (fun e => [exn_str e]) i (World [] [])
  = (World [] [py "list index out of range"], 1).
Proof.
  intros paper entry i.
  refine (proj1 (main_formatter_failure (fun _ => Ok [entry]) (fun k => k) []
                   (fun e => [exn_str e]) i paper entry [] IndexError (World [] [])
                   _ _ _) _).
  - discriminate.
  - reflexivity.
  - vm_compute. reflexivity.
  - left. reflexivity.
Defined.

Lemma main_without_entry_witness :
  let i := Invocation None None (fun _ => Raise IndexError) false [] in
  main (fun _ => Raise IndexError) (fun k => k) [] (fun _ => []) i (World [] [])
  = (World [[]] [], 0).
Proof.
  intros i.
  refine (main_without_entry (fun _ => Raise IndexError) (fun k => k) []
            (fun _ => []) i [] (World [] []) _ _).
  - now left.
  - right. right. now repeat split.
Defined.

(** ** A blank author field *)

Lemma blank_no_separator (s : str) (i : nat) :
  Forall (fun c => is_space c = true \/ c = LBRACE \/ c = RBRACE) s ->
  ~ separator_at s i.
Proof.
  intros H (x & sep & y & (w1 & w2 & _ & _ & _ & _ & ->) & -> & _).
  rewrite !Forall_app in H. destruct H as (_ & (_ & Hand & _) & _).
  apply Forall_cons in Hand as [[Ha|[Ha|Ha]] _]; discriminate.
Qed.

(** X17: an author field that is not empty but holds only whitespace
    and braces makes the formatter raise an IndexError: unlike the
    other fields, a blank author value is not treated as a missing
    one. *)
Theorem blank_authors_raise (s : str) :
  s <> [] ->
  Forall (fun c => is_space c = true \/ c = LBRACE \/ c = RBRACE) s ->
  _format_authors_apa s = Raise IndexError
  /\ forall fields, get fields "author" = s -> apa_line fields = Raise IndexError.
Proof.
  intros Hne Hb.
  assert (Hr : _format_authors_apa s = Raise IndexError).
  { assert (Hparts : re_split m_and s = [s]).
    { apply (split_at_and_unique s); [apply re_split_and_splits|].
      apply split_at_and_last. intros i. now apply blank_no_separator. }
    destruct s as [|c s]; [congruence|].
    unfold _format_authors_apa. rewrite Hparts. simpl mapM.
    destruct (format_name_outcome (c :: s)) as [[_ ->]|[Htok _]]; [reflexivity|].
    rewrite unescape_blank_text in Htok by now apply Forall_strip.
    now destruct Htok. }
  split; [exact Hr|].
  intros fields Hf. unfold apa_line. now rewrite Hf, Hr.
Qed.

Lemma blank_authors_raise_witness :
  _format_authors_apa (py "{ }") = Raise IndexError
  /\ forall fields, get fields "author" = py "{ }" -> apa_line fields = Raise IndexError.
Proof.
  apply (blank_authors_raise (py "{ }")).
  - discriminate.
  - repeat (constructor; [vm_compute; tauto|]). constructor.
Defined.
